(** * A shallow embedding of [src/evaluation.h]

    The header declares a small graph of evaluation nodes ([EvalNode] and
    its five derived classes) and an [EvaluationContext] that owns named
    expressions and variables.  Nodes are shared through
    [std::shared_ptr] and carry a mutable cache, so the embedding keeps
    an explicit store of nodes addressed by location; [double] is the
    kernel's binary64 type, on which [is_nan] is [std::isnan].  A node
    lives as long as something points to it, so the store never frees
    one.  [EvaluationContext::setVariable] and the destructor of
    [EvalNode] are only declared in the header and are not modelled. *)

From Stdlib Require Import Floats.PrimFloat.
From stdpp Require Import base list strings gmap.

Open Scope string_scope.
Open Scope list_scope.

(** ** Data model *)

Abbreviation double := float.

(** A location in the store; locations are handed out in allocation order. *)
Abbreviation loc := nat.

(** [std::shared_ptr<EvalNode>]: [None] is the empty pointer. *)
Abbreviation Ptr := (option nat).

(** The derived classes with their own data members.  [ConstantNode]
    has none: its value lives in the base class cache. *)
Inductive variant :=
| ExpressionNode (d_expression : Ptr) (d_name : string)
| ConstantNode
| VariableNode (d_needCalc : bool) (d_name : string)
| UnaryOperatorNode (d_node : Ptr) (d_function : double -> double)
| BinaryOperatorNode (d_leftNode d_rightNode : Ptr)
                     (d_function : double -> double -> double).

(** An object of class [EvalNode]: the base member [d_cachedValue] and
    the derived part. *)
Record EvalNode := mkNode { d_cachedValue : double; derived : variant }.

(** One line written to [std::cout].  A double streamed after the text
    is kept as a value instead of being formatted. *)
Inductive line :=
| Text (s : string)
| TextValue (s : string) (value : double).

Record world := mkWorld { heap : list EvalNode; cout : list line }.

(** ** Results and the state monad of the member functions *)

(** [Throw what] is [throw std::runtime_error(what)].  [Undef] is
    undefined behaviour: dereferencing an empty or dangling pointer, or a
    pointer to an object of the wrong class.  [OutOfFuel] only arises
    when the recursion bound of the embedding is exhausted. *)
Inductive res (A : Type) :=
| Ok (a : A)
| Throw (what : string)
| Undef
| OutOfFuel.
Arguments Ok {A} a.
Arguments Throw {A} what.
Arguments Undef {A}.
Arguments OutOfFuel {A}.

Definition res_bind {A B} (r : res A) (k : A -> res B) : res B :=
  match r with
  | Ok a => k a
  | Throw what => Throw what
  | Undef => Undef
  | OutOfFuel => OutOfFuel
  end.

Notation "'let?' x ':=' r 'in' k" := (res_bind r (fun x => k))
  (at level 10, x pattern, r at level 100, k at level 200).

(** A member function that may write the store: the world at the point
    of a [Throw] is the world the handler sees. *)
Definition M (A : Type) := world -> res A * world.

Definition ret {A} (a : A) : M A := fun w => (Ok a, w).

Definition bind {A B} (m : M A) (k : A -> M B) : M B := fun w =>
  match m w with
  | (Ok a, w') => k a w'
  | (Throw what, w') => (Throw what, w')
  | (Undef, w') => (Undef, w')
  | (OutOfFuel, w') => (OutOfFuel, w')
  end.

Notation "'let*' x ':=' m 'in' k" := (bind m (fun x => k))
  (at level 10, x pattern, m at level 100, k at level 200).

(** A [const] computation on the store. *)
Definition query {A} (f : list EvalNode -> res A) : M A :=
  fun w => (f (heap w), w).

Definition throw {A} (what : string) : M A := fun w => (Throw what, w).

Definition undefined {A} : M A := fun w => (Undef, w).

Definition store (l : loc) (n : EvalNode) : M unit :=
  fun w => (Ok tt, mkWorld (<[l := n]> (heap w)) (cout w)).

Definition print (s : line) : M unit :=
  fun w => (Ok tt, mkWorld (heap w) (cout w ++ [s])).

(** [std::make_shared]: the new object gets the next location. *)
Definition alloc (n : EvalNode) : M Ptr :=
  fun w => (Ok (Some (length (heap w))), mkWorld (heap w ++ [n]) (cout w)).

Fixpoint for_each {A} (f : A -> M unit) (xs : list A) : M unit :=
  match xs with
  | [] => ret tt
  | x :: xs' => let* _ := f x in for_each f xs'
  end.

(** [p->]: the object a pointer designates. *)
Definition deref (h : list EvalNode) (p : Ptr) : res (loc * EvalNode) :=
  match p with
  | None => Undef
  | Some l =>
      match h !! l with
      | Some n => Ok (l, n)
      | None => Undef
      end
  end.

(** ** The virtual member functions *)

(** Virtual [eval()].  Operator and expression nodes call [eval()] of
    their operands.  Both arguments of a binary function are evaluated
    before the call; the only exception either can raise carries the same
    message, so the left-to-right order chosen here is not observable.
    The functions held by operator nodes are taken to be total and free
    of effects. *)
Fixpoint eval_fuel (fuel : nat) (h : list EvalNode) (p : Ptr) : res double :=
  match fuel with
  | 0 => OutOfFuel
  | S fuel' =>
      let? (_, n) := deref h p in
      match derived n with
      | ExpressionNode d_expression _ => eval_fuel fuel' h d_expression
      | ConstantNode => Ok (d_cachedValue n)
      | VariableNode _ _ =>
          if is_nan (d_cachedValue n) then Throw "Variable not set"
          else Ok (d_cachedValue n)
      | UnaryOperatorNode d_node d_function =>
          let? x := eval_fuel fuel' h d_node in
          Ok (d_function x)
      | BinaryOperatorNode d_leftNode d_rightNode d_function =>
          let? x := eval_fuel fuel' h d_leftNode in
          let? y := eval_fuel fuel' h d_rightNode in
          Ok (d_function x y)
      end
  end.

(** Virtual [needCalc()]; [||] does not evaluate its right operand when
    the left one is true. *)
Fixpoint needCalc_fuel (fuel : nat) (h : list EvalNode) (p : Ptr) : res bool :=
  match fuel with
  | 0 => OutOfFuel
  | S fuel' =>
      let? (_, n) := deref h p in
      match derived n with
      | ExpressionNode d_expression _ => needCalc_fuel fuel' h d_expression
      | ConstantNode => Ok false
      | VariableNode d_needCalc _ => Ok d_needCalc
      | UnaryOperatorNode d_node _ => needCalc_fuel fuel' h d_node
      | BinaryOperatorNode d_leftNode d_rightNode _ =>
          let? b := needCalc_fuel fuel' h d_leftNode in
          if b then Ok true else needCalc_fuel fuel' h d_rightNode
      end
  end.

(** A node only points to nodes that existed when it was constructed,
    so a call chain is never longer than the number of nodes. *)
Definition eval (h : list EvalNode) (p : Ptr) : res double :=
  eval_fuel (S (length h)) h p.

Definition needCalc (h : list EvalNode) (p : Ptr) : res bool :=
  needCalc_fuel (S (length h)) h p.

(** ** [EvalNode] *)

(** The protected setter [cacheValue(double)]. *)
Definition cacheValue (n : EvalNode) (value : double) : EvalNode :=
  mkNode value (derived n).

(** [EvalNode::calc()], the memoizing entry point. *)
Definition EvalNode_calc (p : Ptr) : M double :=
  let* (l, n) := query (fun h => deref h p) in
  let* recalc :=
    (if is_nan (d_cachedValue n) then ret true
     else query (fun h => needCalc h p)) in
  if (recalc : bool) then
    let* value := query (fun h => eval h p) in
    let* _ := store l (cacheValue n value) in
    ret value
  else
    let* _ := print (Text "Using cache") in
    ret (d_cachedValue n).

(** ** Constructors *)

Definition new_ExpressionNode (name : string) (expression : Ptr) : M Ptr :=
  let* p := alloc (mkNode nan (ExpressionNode expression name)) in
  let* _ := print (Text ("Expression created: " +:+ name)) in
  ret p.

Definition new_ConstantNode (value : double) : M Ptr :=
  let* p := alloc (mkNode value ConstantNode) in
  let* _ := print (TextValue "Constant created: " value) in
  ret p.

Definition new_VariableNode (name : string) : M Ptr :=
  let* p := alloc (mkNode nan (VariableNode true name)) in
  let* _ := print (Text ("Variable created: " +:+ name)) in
  ret p.

Definition new_UnaryOperatorNode (node : Ptr) (function : double -> double)
  : M Ptr :=
  let* p := alloc (mkNode nan (UnaryOperatorNode node function)) in
  let* _ := print (Text "UnaryOperatorNode created: ") in
  ret p.

Definition new_BinaryOperatorNode (leftNode rightNode : Ptr)
    (function : double -> double -> double) : M Ptr :=
  let* p := alloc (mkNode nan (BinaryOperatorNode leftNode rightNode function)) in
  let* _ := print (Text "BinaryOperatorNode created: ") in
  ret p.

(** ** [VariableNode] *)

Definition VariableNode_set (x : Ptr) (value : double) : M unit :=
  let* (l, n) := query (fun h => deref h x) in
  match derived n with
  | VariableNode _ d_name => store l (mkNode value (VariableNode true d_name))
  | _ => undefined
  end.

Definition VariableNode_cache (x : Ptr) : M unit :=
  let* (l, n) := query (fun h => deref h x) in
  match derived n with
  | VariableNode _ d_name =>
      store l (mkNode (d_cachedValue n) (VariableNode false d_name))
  | _ => undefined
  end.

(** ** [EvaluationContext] *)

Record EvaluationContext := mkContext {
  d_expressionMap : gmap string Ptr;
  d_variableMap : gmap string Ptr;
  d_expressions : list Ptr
}.

Definition new_EvaluationContext : EvaluationContext := mkContext ∅ ∅ [].

(** [std::map::operator[]]: an absent key is inserted with an empty
    pointer, which is then returned. *)
Definition map_subscript (m : gmap string Ptr) (name : string)
  : Ptr * gmap string Ptr :=
  match m !! name with
  | Some p => (p, m)
  | None => (None, <[name := None]> m)
  end.

Definition isKnownExpression (name : string) (ctx : EvaluationContext) : bool :=
  bool_decide (is_Some (d_expressionMap ctx !! name)).

Definition isKnownVariable (name : string) (ctx : EvaluationContext) : bool :=
  bool_decide (is_Some (d_variableMap ctx !! name)).

Definition getExpression (name : string) (ctx : EvaluationContext)
  : Ptr * EvaluationContext :=
  let '(p, m) := map_subscript (d_expressionMap ctx) name in
  (p, mkContext m (d_variableMap ctx) (d_expressions ctx)).

Definition getVariable (name : string) (ctx : EvaluationContext)
  : Ptr * EvaluationContext :=
  let '(p, m) := map_subscript (d_variableMap ctx) name in
  (p, mkContext (d_expressionMap ctx) m (d_expressions ctx)).

Definition addExpression (name : string) (expression : Ptr)
    (ctx : EvaluationContext) : EvaluationContext :=
  mkContext (<[name := expression]> (d_expressionMap ctx))
            (d_variableMap ctx)
            (d_expressions ctx ++ [expression]).

Definition addVariable (name : string) (variable : Ptr)
    (ctx : EvaluationContext) : EvaluationContext :=
  mkContext (d_expressionMap ctx)
            (<[name := variable]> (d_variableMap ctx))
            (d_expressions ctx).

(** The pointers held by [d_variableMap].  [std::map] iterates in key
    order; [VariableNode_cache] only clears a flag, so the order in which
    the variables are visited does not show in the result. *)
Definition variables (ctx : EvaluationContext) : list Ptr :=
  (map_to_list (d_variableMap ctx)).*2.

(** The two loops of [EvaluationContext::calc]; the value returned by
    [expression->calc()] is discarded. *)
Definition calc_expressions (ctx : EvaluationContext) : M unit :=
  for_each (fun expression => let* _ := EvalNode_calc expression in ret tt)
           (d_expressions ctx).

Definition cache_variables (ctx : EvaluationContext) : M unit :=
  for_each VariableNode_cache (variables ctx).

(** [EvaluationContext::calc].  After the [find] succeeded,
    [d_expressionMap[expression_name]] does not insert. *)
Definition EvaluationContext_calc (ctx : EvaluationContext)
    (expression_name : string) : M double :=
  let* _ := calc_expressions ctx in
  let* _ := cache_variables ctx in
  match d_expressionMap ctx !! expression_name with
  | None => throw "Not found"
  | Some p => EvalNode_calc p
  end.


(** ** Well-formed stores *)

(** The pointers a node holds. *)
Definition operands (n : EvalNode) : list Ptr :=
  match derived n with
  | ExpressionNode d_expression _ => [d_expression]
  | ConstantNode => []
  | VariableNode _ _ => []
  | UnaryOperatorNode d_node _ => [d_node]
  | BinaryOperatorNode d_leftNode d_rightNode _ => [d_leftNode; d_rightNode]
  end.

(** Every operand is a non-empty pointer to a node allocated earlier:
    what the constructors produce when they are given live nodes. *)
Definition wf_heap (h : list EvalNode) : Prop :=
  forall l n p, h !! l = Some n -> p ∈ operands n ->
    exists q, p = Some q /\ q < l.

(** ** Relations between nodes *)

(** Two nodes [eval] cannot tell apart: same class, operands and
    function, and for the two leaf classes the same cached value. *)
Definition eval_sim (n n' : EvalNode) : Prop :=
  match derived n, derived n' with
  | ExpressionNode e _, ExpressionNode e' _ => e = e'
  | ConstantNode, ConstantNode => d_cachedValue n = d_cachedValue n'
  | VariableNode _ _, VariableNode _ _ => d_cachedValue n = d_cachedValue n'
  | UnaryOperatorNode e f, UnaryOperatorNode e' f' => e = e' /\ f = f'
  | BinaryOperatorNode a b f, BinaryOperatorNode a' b' f' =>
      a = a' /\ b = b' /\ f = f'
  | _, _ => False
  end.

(** [needCalc] reads the derived part only. *)
Definition need_sim (n n' : EvalNode) : Prop := derived n = derived n'.

(** ** The outcomes of [calc] *)

Definition using_cache (w : world) : world :=
  mkWorld (heap w) (cout w ++ [Text "Using cache"]).

Definition recached (l : loc) (n : EvalNode) (value : double) (w : world) : world :=
  mkWorld (<[l := cacheValue n value]> (heap w)) (cout w).

Inductive calc_outcome (p : Ptr) (w : world) : res double * world -> Prop :=
| calc_hit l n :
    p = Some l -> heap w !! l = Some n ->
    is_nan (d_cachedValue n) = false ->
    needCalc (heap w) p = Ok false ->
    calc_outcome p w (Ok (d_cachedValue n), using_cache w)
| calc_miss l n value :
    p = Some l -> heap w !! l = Some n ->
    is_nan (d_cachedValue n) = true \/ needCalc (heap w) p = Ok true ->
    eval (heap w) p = Ok value ->
    calc_outcome p w (Ok value, recached l n value w)
| calc_throw l n :
    p = Some l -> heap w !! l = Some n ->
    is_nan (d_cachedValue n) = true \/ needCalc (heap w) p = Ok true ->
    eval (heap w) p = Throw "Variable not set" ->
    calc_outcome p w (Throw "Variable not set", w)
| calc_stuck r :
    r = Undef \/ r = OutOfFuel -> calc_outcome p w (r, w).

(** ** Relations between worlds *)

(** The store after some calls to [calc()] and [cache()]: every node
    keeps its class, operands and function, and every leaf its value. *)
Definition kept (w w' : world) : Prop := Forall2 eval_sim (heap w) (heap w').

(** The store after some calls to [calc()]: moreover no flag changed. *)
Definition kept_flags (w w' : world) : Prop :=
  Forall2 eval_sim (heap w) (heap w') /\ Forall2 need_sim (heap w) (heap w').

(** The store after some calls to [cache()]: moreover no cached value
    changed. *)
Definition kept_values (w w' : world) : Prop :=
  Forall2 eval_sim (heap w) (heap w') /\
  d_cachedValue <$> heap w = d_cachedValue <$> heap w'.

(** ** Subgraphs *)

(** [under h l x]: node [x] is [l] itself or lies in its operand
    subgraph. *)
Inductive under (h : list EvalNode) : loc -> loc -> Prop :=
| under_here l : under h l l
| under_operand l n q x :
    h !! l = Some n -> Some q ∈ operands n -> under h q x -> under h l x.

(** The [d_needCalc] flag of the variable at a location. *)
Definition flag (h : list EvalNode) (x : loc) : option bool :=
  match h !! x with
  | Some n =>
      match derived n with
      | VariableNode d_needCalc _ => Some d_needCalc
      | _ => None
      end
  | None => None
  end.

(** The value cached at a location. *)
Definition cached (h : list EvalNode) (l : loc) : option double :=
  d_cachedValue <$> h !! l.

(** [settled w0 l w]: the value cached at [l] in [w] is the one
    [eval()] computes in [w0], or the one that was cached in [w0]
    while [l] was clean. *)
Definition settled (w0 : world) (l : loc) (w : world) : Prop :=
  exists c, cached (heap w) l = Some c /\
    (eval (heap w0) (Some l) = Ok c \/
     (cached (heap w0) l = Some c /\ is_nan c = false /\
      needCalc (heap w0) (Some l) = Ok false)).

(** ** Client programs *)

(** The world before the client has constructed anything. *)
Definition empty_world : world := mkWorld [] [].

(** The calls a client can make on the nodes and on a context. *)
Inductive action :=
| MakeExpression (name : string) (expression : Ptr)
| MakeConstant (value : double)
| MakeVariable (name : string)
| MakeUnaryOperator (node : Ptr) (function : double -> double)
| MakeBinaryOperator (leftNode rightNode : Ptr)
                     (function : double -> double -> double)
| SetVariable (x : Ptr) (value : double)
| CacheVariable (x : Ptr)
| CalcNode (p : Ptr)
| Recalculate (ctx : EvaluationContext) (expression_name : string).

Definition perform (a : action) : M unit :=
  match a with
  | MakeExpression name expression =>
      let* _ := new_ExpressionNode name expression in ret tt
  | MakeConstant value => let* _ := new_ConstantNode value in ret tt
  | MakeVariable name => let* _ := new_VariableNode name in ret tt
  | MakeUnaryOperator node function =>
      let* _ := new_UnaryOperatorNode node function in ret tt
  | MakeBinaryOperator leftNode rightNode function =>
      let* _ := new_BinaryOperatorNode leftNode rightNode function in ret tt
  | SetVariable x value => VariableNode_set x value
  | CacheVariable x => VariableNode_cache x
  | CalcNode p => let* _ := EvalNode_calc p in ret tt
  | Recalculate ctx expression_name =>
      let* _ := EvaluationContext_calc ctx expression_name in ret tt
  end.

(** A pointer a client can hold: a node that has been constructed. *)
Definition live (h : list EvalNode) (p : Ptr) : bool :=
  match p with
  | Some q => bool_decide (q < length h)
  | None => false
  end.

(** Constructors are given pointers to nodes that exist. *)
Definition live_action (a : action) (h : list EvalNode) : bool :=
  match a with
  | MakeExpression _ expression => live h expression
  | MakeUnaryOperator node _ => live h node
  | MakeBinaryOperator leftNode rightNode _ => live h leftNode && live h rightNode
  | _ => true
  end.

(** A client runs its calls in sequence and goes on after catching an
    exception, in the world the exception left.  [None]: the program
    is not a legal client (it hands an empty pointer to a constructor,
    or runs into undefined behaviour). *)
Fixpoint run (prog : list action) (w : world) : option world :=
  match prog with
  | [] => Some w
  | a :: prog' =>
      if live_action a (heap w) then
        match perform a w with
        | (Ok _, w') => run prog' w'
        | (Throw _, w') => run prog' w'
        | _ => None
        end
      else None
  end.

(** [freezes x a]: the call [a] calls [cache()] on the variable [x]. *)
Definition freezes (x : loc) (a : action) : Prop :=
  match a with
  | CacheVariable y => y = Some x
  | Recalculate ctx _ => Some x ∈ variables ctx
  | _ => False
  end.

(** [sets x a]: the call [a] is [set()] on the variable [x]. *)
Definition sets (x : loc) (a : action) : Prop :=
  match a with
  | SetVariable y _ => y = Some x
  | _ => False
  end.

(** ** Invariants of client programs *)

(** A node as a constructor leaves it. *)
Definition fresh (n : EvalNode) : Prop :=
  match derived n with
  | ConstantNode => True
  | VariableNode d _ => d = true /\ is_nan (d_cachedValue n) = true
  | _ => is_nan (d_cachedValue n) = true
  end.

(** [allowed okset okcache a]: every [set()] and [cache()] the call [a]
    makes is on a pointer the predicates accept. *)
Definition allowed (okset okcache : Ptr -> Prop) (a : action) : Prop :=
  match a with
  | SetVariable y _ => okset y
  | CacheVariable y => okcache y
  | Recalculate ctx _ => forall y, y ∈ variables ctx -> okcache y
  | _ => True
  end.

Definition same_operands (n n' : EvalNode) : Prop := operands n = operands n'.

(** The invariant: the store is well formed, and a value cached
    anywhere but in a constant vouches that every variable below it is
    among those in [S]. *)
Definition vouched (S : loc -> Prop) (w : world) : Prop :=
  wf_heap (heap w) /\
  forall l n, heap w !! l = Some n -> derived n <> ConstantNode ->
    is_nan (d_cachedValue n) = false ->
    forall x, under (heap w) l x -> is_Some (flag (heap w) x) -> S x.

(** ** The protocol in the words of the specification *)



(** ** Scenarios *)

(** [std::multiplies<double>]. *)
Definition times (x y : double) : double := PrimFloat.mul x y.

(** The nodes [a], [a*2], [a*3], [E1] and [E2]. *)
Definition build_shared : M (Ptr * Ptr * Ptr) :=
  let* a := new_VariableNode "a" in
  let* two := new_ConstantNode 2%float in
  let* three := new_ConstantNode 3%float in
  let* m2 := new_BinaryOperatorNode a two times in
  let* m3 := new_BinaryOperatorNode a three times in
  let* E1 := new_ExpressionNode "E1" m2 in
  let* E2 := new_ExpressionNode "E2" m3 in
  ret (a, E1, E2).

Definition shared_ctx (a E1 E2 : Ptr) : EvaluationContext :=
  addExpression "E2" E2
    (addExpression "E1" E1 (addVariable "a" a new_EvaluationContext)).

(** Build the graph, optionally run a first pass with [a] set to
    [prior], then [a.set(5)] and recalculate "E1". *)
Definition shared_first_pass (prior : option double)
  : M (EvaluationContext * double) :=
  let* (a, E1, E2) := build_shared in
  let ctx := shared_ctx a E1 E2 in
  let* _ :=
    match prior with
    | Some v0 =>
        let* _ := VariableNode_set a v0 in
        let* _ := EvaluationContext_calc ctx "E1" in
        ret tt
    | None => ret tt
    end in
  let* _ := VariableNode_set a 5%float in
  let* r1 := EvaluationContext_calc ctx "E1" in
  ret (ctx, r1).

(** ... and then recalculate "E2". *)
Definition shared_subgraph (prior : option double) : M (double * double) :=
  let* (ctx, r1) := shared_first_pass prior in
  let* r2 := EvaluationContext_calc ctx "E2" in
  ret (r1, r2).

(** The world and context of the scenario just before the first pass
    with [a] set to 5. *)
Definition demo_world : world :=
  snd ((let* (a, _, _) := build_shared in VariableNode_set a 5%float)
         empty_world).

Definition demo_ctx : EvaluationContext :=
  shared_ctx (Some 0) (Some 5) (Some 6).



(** A registered expression over an unset variable [a], next to a
    variable [b] that has been set. *)
Definition unset_world : world :=
  snd ((let* a := new_VariableNode "a" in
        let* b := new_VariableNode "b" in
        let* _ := new_ExpressionNode "E" a in
        VariableNode_set b 1%float) empty_world).

Definition unset_ctx : EvaluationContext :=
  addExpression "E" (Some 2)
    (addVariable "b" (Some 1) (addVariable "a" (Some 0) new_EvaluationContext)).

(** An expression over a unary operator over a variable set to 5. *)
Definition chain_world : world :=
  snd ((let* a := new_VariableNode "a" in
        let* u := new_UnaryOperatorNode a (times 2%float) in
        let* _ := new_ExpressionNode "E" u in
        VariableNode_set a 5%float) empty_world).

(** A client that builds an expression over an unset variable and
    tries to recalculate it. *)
Definition unset_prog : list action :=
  [ MakeVariable "a"; MakeConstant 2%float;
    MakeBinaryOperator (Some 0) (Some 1) times;
    MakeExpression "E" (Some 2);
    Recalculate (addExpression "E" (Some 3)
                   (addVariable "a" (Some 0) new_EvaluationContext)) "E";
    CacheVariable (Some 0) ].

(** A decision procedure for [wf_heap]. *)
Definition live_below (l : nat) (p : Ptr) : bool :=
  match p with
  | Some q => Nat.ltb q l
  | None => false
  end.

Fixpoint wf_from (l : nat) (h : list EvalNode) : bool :=
  match h with
  | [] => true
  | n :: h' => forallb (live_below l) (operands n) && wf_from (S l) h'
  end.

(** ** Sequences of context calls *)

(** The member functions that can change an [EvaluationContext]. *)
Inductive context_call :=
| GetExpression (name : string)
| GetVariable (name : string)
| AddExpression (name : string) (expression : Ptr)
| AddVariable (name : string) (variable : Ptr).

Definition call_context (c : context_call) (ctx : EvaluationContext)
  : EvaluationContext :=
  match c with
  | GetExpression name => snd (getExpression name ctx)
  | GetVariable name => snd (getVariable name ctx)
  | AddExpression name expression => addExpression name expression ctx
  | AddVariable name variable => addVariable name variable ctx
  end.

Definition call_contexts (cs : list context_call) (ctx : EvaluationContext)
  : EvaluationContext :=
  foldl (fun ctx c => call_context c ctx) ctx cs.

(** [named_in_list ctx]: every non-empty pointer the expression map
    holds is also in the evaluation list. *)
Definition named_in_list (ctx : EvaluationContext) : Prop :=
  forall name l, d_expressionMap ctx !! name = Some (Some l) ->
    Some l ∈ d_expressions ctx.

(** ** Disciplined clients *)

(** A client that leaves freezing to its contexts.  It never calls
    [cache()] itself, and every pass goes through a context whose
    expression map names nodes of its evaluation list only and whose
    evaluation list contains [listed]: the evaluation list of the pass
    before, and every pointer [calc()] was called on directly since.
    Between passes the client may construct nodes, set variables and
    register further nodes. *)
Fixpoint disciplined_from (listed : list Ptr) (prog : list action) : Prop :=
  match prog with
  | [] => True
  | CacheVariable _ :: _ => False
  | CalcNode p :: prog' => disciplined_from (p :: listed) prog'
  | Recalculate ctx _ :: prog' =>
      listed ⊆ d_expressions ctx /\ named_in_list ctx /\
      disciplined_from (d_expressions ctx) prog'
  | _ :: prog' => disciplined_from listed prog'
  end.

(** [all_fresh w]: every cached value other than NaN is the value
    [eval()] gives. *)
Definition all_fresh (w : world) : Prop :=
  forall l n, heap w !! l = Some n -> is_nan (d_cachedValue n) = false ->
    eval (heap w) (Some l) = Ok (d_cachedValue n).

(** [clean_fresh w]: the same for the nodes that are clean, the ones
    [calc()] serves from the cache. *)
Definition clean_fresh (w : world) : Prop :=
  forall l n, heap w !! l = Some n -> is_nan (d_cachedValue n) = false ->
    needCalc (heap w) (Some l) = Ok false ->
    eval (heap w) (Some l) = Ok (d_cachedValue n).

(** [cached_registered ctx w]: only leaves and expressions registered
    with [ctx] hold a cached value. *)
Definition cached_registered (ctx : EvaluationContext) (w : world) : Prop :=
  forall l n, heap w !! l = Some n -> operands n <> [] ->
    is_nan (d_cachedValue n) = false -> Some l ∈ d_expressions ctx.

Definition coherent (ctx : EvaluationContext) (w : world) : Prop :=
  wf_heap (heap w) /\ clean_fresh w /\ cached_registered ctx w.

(** ** Further scenarios *)

(** The context of the shared-subgraph client before [E2] is
    registered. *)
Definition first_ctx : EvaluationContext :=
  addExpression "E1" (Some 5) (addVariable "a" (Some 0) new_EvaluationContext).

(** The shared-subgraph client as a program: it builds the graph,
    runs a pass with [a] set to 1 while only [E1] is registered, calls
    [calc()] on [E2], which is registered afterwards, and sets [a] to
    5. *)
Definition demo_prog : list action :=
  [ MakeVariable "a"; MakeConstant 2%float; MakeConstant 3%float;
    MakeBinaryOperator (Some 0) (Some 1) times;
    MakeBinaryOperator (Some 0) (Some 2) times;
    MakeExpression "E1" (Some 3); MakeExpression "E2" (Some 4);
    SetVariable (Some 0) 1%float;
    Recalculate first_ctx "E1";
    CalcNode (Some 6);
    SetVariable (Some 0) 5%float ].

(** Lookups and registrations, with a duplicate name and a lookup of
    an unknown one. *)
Definition demo_calls : list context_call :=
  [ AddVariable "a" (Some 0); AddExpression "E" (Some 1);
    GetExpression "F"; AddExpression "E" (Some 2) ].

(** The scenario after its first pass, and then after [a.set(7)]
    followed by [a.cache()] with no pass in between. *)
Definition passed_world : world := snd (shared_first_pass None empty_world).

Definition hidden_world : world :=
  snd ((let* _ := VariableNode_set (Some 0) 7%float in
        VariableNode_cache (Some 0)) passed_world).

(** * Properties *)

(** ** Recursion depth *)

Lemma wf_operand h l n p :
  wf_heap h -> h !! l = Some n -> p ∈ operands n ->
  exists q, p = Some q /\ q < l /\ q < length h.
Proof.
  intros Hwf Hl Hp. destruct (Hwf l n p Hl Hp) as (q & -> & Hq).
  exists q. split; [done|]. split; [done|].
  apply lookup_lt_Some in Hl. lia.
Qed.

Lemma res_bind_fuel {A B} (r : res A) (k : A -> res B) :
  res_bind r k <> OutOfFuel -> r <> OutOfFuel.
Proof. by destruct r. Qed.

Lemma eval_fuel_mono k k' h p :
  eval_fuel k h p <> OutOfFuel -> k <= k' ->
  eval_fuel k' h p = eval_fuel k h p.
Proof.
  revert k' p. induction k as [|k IH]; intros k' p Hne Hle; [done|].
  destruct k' as [|k']; [lia|]. simpl in *.
  destruct (deref h p) as [[l n]| | |]; simpl in *; try done.
  destruct (derived n); try done.
  - apply IH; [done|lia].
  - rewrite (IH k'); [done| |lia]. by apply res_bind_fuel in Hne.
  - assert (eval_fuel k h d_leftNode <> OutOfFuel) as Hl
      by by apply res_bind_fuel in Hne.
    rewrite (IH k' _ Hl); [|lia].
    destruct (eval_fuel k h d_leftNode); simpl in *; try done.
    rewrite (IH k'); [done| |lia]. by apply res_bind_fuel in Hne.
Qed.

Lemma needCalc_fuel_mono k k' h p :
  needCalc_fuel k h p <> OutOfFuel -> k <= k' ->
  needCalc_fuel k' h p = needCalc_fuel k h p.
Proof.
  revert k' p. induction k as [|k IH]; intros k' p Hne Hle; [done|].
  destruct k' as [|k']; [lia|]. simpl in *.
  destruct (deref h p) as [[l n]| | |]; simpl in *; try done.
  destruct (derived n); try done.
  - apply IH; [done|lia].
  - apply IH; [done|lia].
  - assert (needCalc_fuel k h d_leftNode <> OutOfFuel) as Hl
      by by apply res_bind_fuel in Hne.
    rewrite (IH k' _ Hl); [|lia].
    destruct (needCalc_fuel k h d_leftNode) as [[]| | |]; simpl in *; try done.
    apply IH; [done|lia].
Qed.

Section WellFormed.
Variable h : list EvalNode.
Hypothesis Hwf : wf_heap h.

Lemma eval_fuel_enough l : eval_fuel (S l) h (Some l) <> OutOfFuel.
Proof.
  induction l as [l IH] using lt_wf_ind.
  cbn [eval_fuel deref]. destruct (h !! l) as [n|] eqn:Hn; cbn [res_bind]; [|done].
  assert (forall p, p ∈ operands n -> eval_fuel l h p <> OutOfFuel) as Hop.
  { intros p Hp. destruct (Hwf l n p Hn Hp) as (q & -> & Hq).
    rewrite (eval_fuel_mono (S q)); [by apply IH|by apply IH|lia]. }
  unfold operands in Hop. destruct (derived n); try done.
  - apply Hop. set_solver.
  - by destruct is_nan.
  - specialize (Hop d_node). destruct (eval_fuel l h d_node); try done.
    apply Hop; set_solver.
  - pose proof (Hop d_leftNode) as H1. pose proof (Hop d_rightNode) as H2.
    destruct (eval_fuel l h d_leftNode); simpl; try done;
      [|apply H1; set_solver].
    destruct (eval_fuel l h d_rightNode); simpl; try done.
    apply H2; set_solver.
Qed.

Lemma needCalc_fuel_enough l : needCalc_fuel (S l) h (Some l) <> OutOfFuel.
Proof.
  induction l as [l IH] using lt_wf_ind.
  cbn [needCalc_fuel deref]. destruct (h !! l) as [n|] eqn:Hn; cbn [res_bind]; [|done].
  assert (forall p, p ∈ operands n -> needCalc_fuel l h p <> OutOfFuel) as Hop.
  { intros p Hp. destruct (Hwf l n p Hn Hp) as (q & -> & Hq).
    rewrite (needCalc_fuel_mono (S q)); [by apply IH|by apply IH|lia]. }
  unfold operands in Hop. destruct (derived n); try done.
  - apply Hop. set_solver.
  - apply Hop. set_solver.
  - pose proof (Hop d_leftNode) as H1. pose proof (Hop d_rightNode) as H2.
    destruct (needCalc_fuel l h d_leftNode) as [[]| | |]; simpl; try done;
      [|apply H1; set_solver].
    apply H2; set_solver.
Qed.

(** Any bound above the location gives the result of [eval]. *)
Lemma eval_fuel_stable k q :
  q < k -> eval_fuel k h (Some q) = eval_fuel (S q) h (Some q).
Proof. intros. apply eval_fuel_mono; [apply eval_fuel_enough|lia]. Qed.

Lemma needCalc_fuel_stable k q :
  q < k -> needCalc_fuel k h (Some q) = needCalc_fuel (S q) h (Some q).
Proof. intros. apply needCalc_fuel_mono; [apply needCalc_fuel_enough|lia]. Qed.

Lemma eval_operand l n p :
  h !! l = Some n -> p ∈ operands n -> eval_fuel (length h) h p = eval h p.
Proof.
  intros Hl Hp. destruct (wf_operand h l n p Hwf Hl Hp) as (q & -> & _ & Hq).
  unfold eval.
  by rewrite (eval_fuel_stable (length h)), (eval_fuel_stable (S (length h))) by lia.
Qed.

Lemma needCalc_operand l n p :
  h !! l = Some n -> p ∈ operands n ->
  needCalc_fuel (length h) h p = needCalc h p.
Proof.
  intros Hl Hp. destruct (wf_operand h l n p Hwf Hl Hp) as (q & -> & _ & Hq).
  unfold needCalc.
  by rewrite (needCalc_fuel_stable (length h)), (needCalc_fuel_stable (S (length h))) by lia.
Qed.

(** [eval] never runs out of fuel. *)
Lemma eval_terminates p : eval h p <> OutOfFuel.
Proof.
  destruct p as [l|]; [|done]. unfold eval.
  destruct (decide (l < length h)) as [Hl|Hl].
  - rewrite eval_fuel_stable; [apply eval_fuel_enough|lia].
  - cbn [eval_fuel deref]. rewrite lookup_ge_None_2; [done|lia].
Qed.

Lemma needCalc_terminates p : needCalc h p <> OutOfFuel.
Proof.
  destruct p as [l|]; [|done]. unfold needCalc.
  destruct (decide (l < length h)) as [Hl|Hl].
  - rewrite needCalc_fuel_stable; [apply needCalc_fuel_enough|lia].
  - cbn [needCalc_fuel deref]. rewrite lookup_ge_None_2; [done|lia].
Qed.

(** The equations of the virtual functions, one per derived class. *)
Lemma eval_ExpressionNode l c e name :
  h !! l = Some (mkNode c (ExpressionNode e name)) ->
  eval h (Some l) = eval h e.
Proof.
  intros Hl. rewrite <- (eval_operand l _ e Hl); [|set_solver].
  unfold eval. cbn [eval_fuel deref]. by rewrite Hl.
Qed.

Lemma eval_ConstantNode l c :
  h !! l = Some (mkNode c ConstantNode) -> eval h (Some l) = Ok c.
Proof. intros Hl. unfold eval. cbn [eval_fuel deref]. by rewrite Hl. Qed.

Lemma eval_VariableNode l c d name :
  h !! l = Some (mkNode c (VariableNode d name)) ->
  eval h (Some l) = if is_nan c then Throw "Variable not set" else Ok c.
Proof. intros Hl. unfold eval. cbn [eval_fuel deref]. by rewrite Hl. Qed.

Lemma eval_UnaryOperatorNode l c e f :
  h !! l = Some (mkNode c (UnaryOperatorNode e f)) ->
  eval h (Some l) = let? x := eval h e in Ok (f x).
Proof.
  intros Hl. rewrite <- (eval_operand l _ e Hl); [|set_solver].
  unfold eval. cbn [eval_fuel deref]. by rewrite Hl.
Qed.

Lemma eval_BinaryOperatorNode l c e1 e2 f :
  h !! l = Some (mkNode c (BinaryOperatorNode e1 e2 f)) ->
  eval h (Some l) =
    let? x := eval h e1 in let? y := eval h e2 in Ok (f x y).
Proof.
  intros Hl. rewrite <- (eval_operand l _ e1 Hl); [|set_solver].
  rewrite <- (eval_operand l _ e2 Hl); [|set_solver].
  unfold eval. cbn [eval_fuel deref]. by rewrite Hl.
Qed.

Lemma needCalc_ExpressionNode l c e name :
  h !! l = Some (mkNode c (ExpressionNode e name)) ->
  needCalc h (Some l) = needCalc h e.
Proof.
  intros Hl. rewrite <- (needCalc_operand l _ e Hl); [|set_solver].
  unfold needCalc. cbn [needCalc_fuel deref]. by rewrite Hl.
Qed.

Lemma needCalc_ConstantNode l c :
  h !! l = Some (mkNode c ConstantNode) -> needCalc h (Some l) = Ok false.
Proof. intros Hl. unfold needCalc. cbn [needCalc_fuel deref]. by rewrite Hl. Qed.

Lemma needCalc_VariableNode l c d name :
  h !! l = Some (mkNode c (VariableNode d name)) ->
  needCalc h (Some l) = Ok d.
Proof. intros Hl. unfold needCalc. cbn [needCalc_fuel deref]. by rewrite Hl. Qed.

Lemma needCalc_UnaryOperatorNode l c e f :
  h !! l = Some (mkNode c (UnaryOperatorNode e f)) ->
  needCalc h (Some l) = needCalc h e.
Proof.
  intros Hl. rewrite <- (needCalc_operand l _ e Hl); [|set_solver].
  unfold needCalc. cbn [needCalc_fuel deref]. by rewrite Hl.
Qed.

Lemma needCalc_BinaryOperatorNode l c e1 e2 f :
  h !! l = Some (mkNode c (BinaryOperatorNode e1 e2 f)) ->
  needCalc h (Some l) =
    let? b := needCalc h e1 in if b then Ok true else needCalc h e2.
Proof.
  intros Hl. rewrite <- (needCalc_operand l _ e1 Hl); [|set_solver].
  rewrite <- (needCalc_operand l _ e2 Hl); [|set_solver].
  unfold needCalc. cbn [needCalc_fuel deref]. by rewrite Hl.
Qed.
End WellFormed.

(** ** What the virtual functions read *)

Lemma eval_sim_refl n : eval_sim n n.
Proof. unfold eval_sim. by destruct (derived n). Qed.

Lemma eval_sim_operands n n' : eval_sim n n' -> operands n = operands n'.
Proof.
  unfold eval_sim, operands.
  destruct (derived n), (derived n'); intros Hs; try done.
  - by subst.
  - by destruct Hs as [-> _].
  - by destruct Hs as (-> & -> & _).
Qed.

Lemma deref_Forall2 (P : EvalNode -> EvalNode -> Prop) h h' p :
  Forall2 P h h' ->
  match deref h p, deref h' p with
  | Ok (l, n), Ok (l', n') => l = l' /\ P n n'
  | Undef, Undef => True
  | _, _ => False
  end.
Proof.
  intros HF. destruct p as [l|]; simpl; [|done].
  destruct (h !! l) as [n|] eqn:Hn.
  - destruct (Forall2_lookup_l _ _ _ _ _ HF Hn) as (n' & -> & HP). done.
  - apply lookup_ge_None in Hn. rewrite (Forall2_length _ _ _ HF) in Hn.
    apply lookup_ge_None in Hn. by rewrite Hn.
Qed.

Lemma eval_fuel_sim k h h' p :
  Forall2 eval_sim h h' -> eval_fuel k h p = eval_fuel k h' p.
Proof.
  intros HF. revert p. induction k as [|k IH]; intros p; [done|]. simpl.
  pose proof (deref_Forall2 _ h h' p HF) as Hd.
  destruct (deref h p) as [[l n]| | |], (deref h' p) as [[l' n']| | |];
    try done; simpl.
  destruct Hd as [<- Hs]. unfold eval_sim in Hs.
  destruct (derived n), (derived n'); try done.
  - by rewrite IH, Hs.
  - by rewrite Hs.
  - by rewrite Hs.
  - destruct Hs as [<- <-]. by rewrite IH.
  - destruct Hs as (<- & <- & <-). by rewrite !IH.
Qed.

Lemma eval_sim_eq h h' p : Forall2 eval_sim h h' -> eval h p = eval h' p.
Proof.
  intros HF. unfold eval. rewrite (Forall2_length _ _ _ HF).
  by apply eval_fuel_sim.
Qed.

Lemma needCalc_fuel_sim k h h' p :
  Forall2 need_sim h h' -> needCalc_fuel k h p = needCalc_fuel k h' p.
Proof.
  intros HF. revert p. induction k as [|k IH]; intros p; [done|]. simpl.
  pose proof (deref_Forall2 _ h h' p HF) as Hd.
  destruct (deref h p) as [[l n]| | |], (deref h' p) as [[l' n']| | |];
    try done; simpl.
  destruct Hd as [<- Hs]. unfold need_sim in Hs. rewrite <- Hs.
  destruct (derived n); try done. by rewrite !IH.
Qed.

Lemma needCalc_sim_eq h h' p : Forall2 need_sim h h' -> needCalc h p = needCalc h' p.
Proof.
  intros HF. unfold needCalc. rewrite (Forall2_length _ _ _ HF).
  by apply needCalc_fuel_sim.
Qed.

Lemma Forall2_insert_r (P : EvalNode -> EvalNode -> Prop) h l n n' :
  (forall x, P x x) -> h !! l = Some n -> P n n' ->
  Forall2 P h (<[l := n']> h).
Proof.
  intros Hrefl Hl HP. rewrite <- (list_insert_id h l n Hl) at 1.
  apply Forall2_insert; [|done].
  apply Forall_Forall2_diag, Forall_forall. auto.
Qed.

Lemma wf_heap_insert h l n n' :
  wf_heap h -> h !! l = Some n -> operands n' = operands n ->
  wf_heap (<[l := n']> h).
Proof.
  intros Hwf Hl Hop l' m p Hm Hp.
  destruct (decide (l = l')) as [<-|Hne].
  - rewrite list_lookup_insert_eq in Hm by by eapply lookup_lt_Some.
    injection Hm as <-. rewrite Hop in Hp. eauto.
  - rewrite list_lookup_insert_ne in Hm by done. eauto.
Qed.

(** ** Totality and exceptions *)

(** On a well-formed store the virtual functions return, or throw the
    one exception [VariableNode::eval] can raise. *)
Lemma eval_total h l :
  wf_heap h -> l < length h ->
  (exists v, eval h (Some l) = Ok v) \/ eval h (Some l) = Throw "Variable not set".
Proof.
  intros Hwf. induction l as [l IH] using lt_wf_ind. intros Hl.
  destruct (lookup_lt_is_Some_2 h l Hl) as [[c d] Hn].
  assert (forall p, p ∈ operands (mkNode c d) ->
    (exists v, eval h p = Ok v) \/ eval h p = Throw "Variable not set") as Hop.
  { intros p Hp. destruct (wf_operand h l _ p Hwf Hn Hp) as (q & -> & ? & ?).
    by apply IH. }
  unfold operands in Hop. destruct d as [e nm| |dn nm|e f|e1 e2 f]; simpl in Hop.
  - rewrite (eval_ExpressionNode h Hwf l c e nm Hn). apply Hop. set_solver.
  - rewrite (eval_ConstantNode h l c Hn). eauto.
  - rewrite (eval_VariableNode h l c dn nm Hn). destruct (is_nan c); eauto.
  - rewrite (eval_UnaryOperatorNode h Hwf l c e f Hn).
    destruct (Hop e) as [[v ->]| ->]; simpl; eauto. set_solver.
  - rewrite (eval_BinaryOperatorNode h Hwf l c e1 e2 f Hn).
    destruct (Hop e1) as [[v ->]| ->]; simpl; eauto; [set_solver|].
    destruct (Hop e2) as [[v' ->]| ->]; simpl; eauto. set_solver.
Qed.

Lemma needCalc_total h l :
  wf_heap h -> l < length h -> exists b, needCalc h (Some l) = Ok b.
Proof.
  intros Hwf. induction l as [l IH] using lt_wf_ind. intros Hl.
  destruct (lookup_lt_is_Some_2 h l Hl) as [[c d] Hn].
  assert (forall p, p ∈ operands (mkNode c d) -> exists b, needCalc h p = Ok b)
    as Hop.
  { intros p Hp. destruct (wf_operand h l _ p Hwf Hn Hp) as (q & -> & ? & ?).
    by apply IH. }
  unfold operands in Hop. destruct d as [e nm| |dn nm|e f|e1 e2 f]; simpl in Hop.
  - rewrite (needCalc_ExpressionNode h Hwf l c e nm Hn). apply Hop. set_solver.
  - rewrite (needCalc_ConstantNode h l c Hn). eauto.
  - rewrite (needCalc_VariableNode h l c dn nm Hn). eauto.
  - rewrite (needCalc_UnaryOperatorNode h Hwf l c e f Hn). apply Hop. set_solver.
  - rewrite (needCalc_BinaryOperatorNode h Hwf l c e1 e2 f Hn).
    destruct (Hop e1) as [[] ->]; simpl; eauto; [set_solver|].
    apply Hop. set_solver.
Qed.

(** The only exception [eval] raises, whatever the store. *)
Lemma eval_fuel_throw k h p what :
  eval_fuel k h p = Throw what -> what = "Variable not set".
Proof.
  revert p. induction k as [|k IH]; intros p; [done|]. simpl.
  destruct p as [l|]; simpl; [|done].
  destruct (h !! l) as [n|]; simpl; [|done].
  destruct (derived n); try done.
  - apply IH.
  - destruct (is_nan _); congruence.
  - destruct (eval_fuel k h d_node) eqn:E; simpl; try done.
    intros [= <-]. by apply IH in E.
  - destruct (eval_fuel k h d_leftNode) eqn:E1; simpl; try done.
    + destruct (eval_fuel k h d_rightNode) eqn:E2; simpl; try done.
      intros [= <-]. by apply IH in E2.
    + intros [= <-]. by apply IH in E1.
Qed.

Lemma needCalc_fuel_no_throw k h p what : needCalc_fuel k h p <> Throw what.
Proof.
  revert p what. induction k as [|k IH]; intros p what; [done|]. simpl.
  destruct p as [l|]; simpl; [|done].
  destruct (h !! l) as [n|]; simpl; [|done].
  destruct (derived n); try done.
  destruct (needCalc_fuel k h d_leftNode) as [[]| | |] eqn:E1; simpl; try done.
  by apply IH in E1.
Qed.

(** ** The outcomes of [calc] *)

Lemma calc_outcome_holds p w : calc_outcome p w (EvalNode_calc p w).
Proof.
  unfold EvalNode_calc, bind, query. simpl.
  destruct p as [l|]; simpl; [|apply calc_stuck; auto].
  destruct (heap w !! l) as [n|] eqn:Hn; [|apply calc_stuck; auto].
  destruct (is_nan (d_cachedValue n)) eqn:Hnan; simpl.
  - destruct (eval (heap w) (Some l)) as [v|s| |] eqn:He;
      try (by apply calc_stuck; auto).
    + eapply calc_miss; eauto.
    + pose proof (eval_fuel_throw _ _ _ _ He) as ->. eapply calc_throw; eauto.
  - destruct (needCalc (heap w) (Some l)) as [[]|s| |] eqn:Hc;
      try (by apply calc_stuck; auto).
    + destruct (eval (heap w) (Some l)) as [v|s| |] eqn:He;
        try (by apply calc_stuck; auto).
      * eapply calc_miss; eauto.
      * pose proof (eval_fuel_throw _ _ _ _ He) as ->. eapply calc_throw; eauto.
    + eapply calc_hit; eauto.
    + by apply needCalc_fuel_no_throw in Hc.
Qed.

(** ** What the mutating functions keep *)

Global Instance eval_sim_preorder : PreOrder eval_sim.
Proof.
  split; [exact eval_sim_refl|].
  intros x y z. unfold eval_sim.
  destruct (derived x), (derived y), (derived z); try done; try congruence.
  - by intros [-> ->] [-> ->].
  - by intros (-> & -> & ->) (-> & -> & ->).
Qed.

Global Instance need_sim_equiv : Equivalence need_sim.
Proof. unfold need_sim. split; congruence. Qed.

Global Instance kept_preorder : PreOrder kept.
Proof.
  split; [intros w; unfold kept; reflexivity|].
  intros x y z. unfold kept. apply transitivity.
Qed.

Global Instance kept_flags_preorder : PreOrder kept_flags.
Proof.
  split; [intros w; split; reflexivity|].
  intros x y z [] []. split; etrans; eauto.
Qed.

Global Instance kept_values_preorder : PreOrder kept_values.
Proof.
  split; [intros w; split; reflexivity|].
  intros x y z [] []. split; etrans; eauto.
Qed.

Lemma bind_rel {A B} (R : relation world) `{!PreOrder R} (m : M A) (k : A -> M B) w :
  R w (snd (m w)) -> (forall a w1, R w1 (snd (k a w1))) ->
  R w (snd (bind m k w)).
Proof.
  intros Hm Hk. unfold bind. destruct (m w) as [[a|s| |] w1]; simpl in *; try done.
  etrans; [exact Hm|apply Hk].
Qed.

Lemma for_each_rel {A} (R : relation world) `{!PreOrder R} (f : A -> M unit) :
  (forall x w, R w (snd (f x w))) ->
  forall xs w, R w (snd (for_each f xs w)).
Proof.
  intros Hf xs. induction xs as [|x xs IH]; intros w; simpl; [reflexivity|].
  apply bind_rel; auto.
Qed.

Lemma calc_kept_flags p w : kept_flags w (snd (EvalNode_calc p w)).
Proof.
  destruct (calc_outcome_holds p w) as [l n ? Hn| l n v ? Hn _ He | |];
    [by split|subst p; split; simpl|reflexivity|reflexivity].
  - apply (Forall2_insert_r eval_sim _ l n); [apply eval_sim_refl|done|].
    destruct n as [c d]. unfold eval_sim, cacheValue. simpl.
    destruct d; try done.
    + rewrite (eval_ConstantNode _ _ _ Hn) in He. congruence.
    + rewrite (eval_VariableNode _ _ _ _ _ Hn) in He.
      destruct (is_nan c); congruence.
  - by apply (Forall2_insert_r need_sim _ l n).
Qed.

Lemma cache_kept_values x w : kept_values w (snd (VariableNode_cache x w)).
Proof.
  unfold VariableNode_cache, bind, query, store, undefined. simpl.
  destruct x as [l|]; simpl; [|reflexivity].
  destruct (heap w !! l) as [[c d]|] eqn:Hn; simpl; [|reflexivity].
  destruct d; simpl; try reflexivity. split; simpl.
  - by apply (Forall2_insert_r eval_sim _ l (mkNode c (VariableNode d_needCalc d_name))).
  - rewrite list_fmap_insert. simpl. symmetry. apply list_insert_id.
    by rewrite list_lookup_fmap, Hn.
Qed.

Lemma kept_flags_kept w w' : kept_flags w w' -> kept w w'.
Proof. by intros []. Qed.

Lemma kept_values_kept w w' : kept_values w w' -> kept w w'.
Proof. by intros []. Qed.

Lemma kept_eval w w' p : kept w w' -> eval (heap w') p = eval (heap w) p.
Proof. intros. symmetry. by apply eval_sim_eq. Qed.

Lemma kept_flags_needCalc w w' p :
  kept_flags w w' -> needCalc (heap w') p = needCalc (heap w) p.
Proof. intros []. symmetry. by apply needCalc_sim_eq. Qed.

Lemma kept_wf w w' : kept w w' -> wf_heap (heap w) -> wf_heap (heap w').
Proof.
  intros HF Hwf l n' p Hn' Hp.
  destruct (Forall2_lookup_r _ _ _ _ _ HF Hn') as (n & Hn & Hs).
  apply eval_sim_operands in Hs. rewrite <- Hs in Hp. eauto.
Qed.

Lemma kept_values_cached w w' l :
  kept_values w w' ->
  d_cachedValue <$> heap w' !! l = d_cachedValue <$> heap w !! l.
Proof. intros [_ H]. by rewrite <- !list_lookup_fmap, H. Qed.

Lemma bind_inv {A B} (I : world -> Prop) (m : M A) (k : A -> M B) w :
  (I w -> I (snd (m w))) -> (forall a w1, I w1 -> I (snd (k a w1))) ->
  I w -> I (snd (bind m k w)).
Proof.
  intros Hm Hk Hw. unfold bind. specialize (Hm Hw).
  destruct (m w) as [[a|s| |] w1]; simpl in *; auto.
Qed.

Lemma for_each_inv {A} (I : world -> Prop) (f : A -> M unit) :
  (forall x w, I w -> I (snd (f x w))) ->
  forall xs w, I w -> I (snd (for_each f xs w)).
Proof.
  intros Hf xs. induction xs as [|x xs IH]; intros w Hw; simpl; [done|].
  apply bind_inv; auto.
Qed.

Lemma for_each_cons_ok {A} (f : A -> M unit) x xs w w' :
  for_each f (x :: xs) w = (Ok tt, w') ->
  exists w1, f x w = (Ok tt, w1) /\ for_each f xs w1 = (Ok tt, w').
Proof.
  simpl. unfold bind. destruct (f x w) as [[[]|s| |] w1]; try done. eauto.
Qed.

Lemma for_each_app {A} (f : A -> M unit) xs ys w :
  for_each f (xs ++ ys) w = (let* _ := for_each f xs in for_each f ys) w.
Proof.
  revert w. induction xs as [|x xs IH]; intros w; simpl; [done|].
  unfold bind in *. by destruct (f x w) as [[[]|s| |] w1].
Qed.

(** [calc()] writes the node it is called on and no other. *)
Lemma calc_frame p w l :
  p <> Some l -> heap (snd (EvalNode_calc p w)) !! l = heap w !! l.
Proof.
  intros Hne.
  destruct (calc_outcome_holds p w) as [| l' n v Hp | |]; simpl; try done.
  apply list_lookup_insert_ne. congruence.
Qed.

(** ** Subgraphs *)

Lemma under_sim_inv h h' l x :
  Forall2 eval_sim h h' -> under h' l x -> under h l x.
Proof.
  intros HF. induction 1 as [|l n' q x Hn' Hq _ IH]; [constructor|].
  destruct (Forall2_lookup_r _ _ _ _ _ HF Hn') as (n & Hn & Hs).
  apply eval_sim_operands in Hs. rewrite <- Hs in Hq.
  by eapply under_operand.
Qed.

Lemma flag_sim h h' x :
  Forall2 eval_sim h h' -> is_Some (flag h x) <-> is_Some (flag h' x).
Proof.
  intros HF. unfold flag.
  pose proof (deref_Forall2 _ h h' (Some x) HF) as Hd. simpl in Hd.
  destruct (h !! x) as [n|], (h' !! x) as [n'|]; try done.
  destruct Hd as [_ Hs]. unfold eval_sim in Hs.
  destruct (derived n), (derived n'); try done; split; intros [? [=]].
Qed.

(** A node all of whose variables are clean needs no recalculation. *)
Lemma needCalc_clean h l :
  wf_heap h -> l < length h ->
  (forall x, under h l x -> flag h x <> Some true) ->
  needCalc h (Some l) = Ok false.
Proof.
  intros Hwf. induction l as [l IH] using lt_wf_ind. intros Hl Hx.
  destruct (lookup_lt_is_Some_2 h l Hl) as [[c d] Hn].
  assert (forall p, p ∈ operands (mkNode c d) -> needCalc h p = Ok false) as Hop.
  { intros p Hp. destruct (wf_operand h l _ p Hwf Hn Hp) as (q & -> & ? & ?).
    apply IH; [done|done|]. intros x Hu. apply Hx. by eapply under_operand. }
  unfold operands in Hop. destruct d as [e nm| |dn nm|e f|e1 e2 f]; simpl in Hop.
  - rewrite (needCalc_ExpressionNode h Hwf l c e nm Hn). apply Hop. set_solver.
  - by rewrite (needCalc_ConstantNode h l c Hn).
  - rewrite (needCalc_VariableNode h l c dn nm Hn).
    specialize (Hx l (under_here _ _)). unfold flag in Hx. rewrite Hn in Hx.
    simpl in Hx. by destruct dn.
  - rewrite (needCalc_UnaryOperatorNode h Hwf l c e f Hn). apply Hop. set_solver.
  - rewrite (needCalc_BinaryOperatorNode h Hwf l c e1 e2 f Hn).
    rewrite (Hop e1) by set_solver. simpl. apply Hop. set_solver.
Qed.

(** One unset variable anywhere below makes [eval()] throw. *)
Lemma eval_throws_unset h l x c d name :
  wf_heap h -> under h l x ->
  h !! x = Some (mkNode c (VariableNode d name)) -> is_nan c = true ->
  eval h (Some l) = Throw "Variable not set".
Proof.
  intros Hwf Hu Hx Hc. induction Hu as [x|l n q x Hn Hq _ IH].
  - by rewrite (eval_VariableNode h x c d name Hx), Hc.
  - specialize (IH Hx). destruct n as [c' d']. unfold operands in Hq.
    destruct d' as [e nm| |dn nm|e f|e1 e2 f]; simpl in Hq.
    + rewrite (eval_ExpressionNode h Hwf l c' e nm Hn).
      apply list_elem_of_singleton in Hq as <-. done.
    + by apply not_elem_of_nil in Hq.
    + by apply not_elem_of_nil in Hq.
    + rewrite (eval_UnaryOperatorNode h Hwf l c' e f Hn).
      apply list_elem_of_singleton in Hq as <-. by rewrite IH.
    + rewrite (eval_BinaryOperatorNode h Hwf l c' e1 e2 f Hn).
      destruct (wf_operand h l _ e1 Hwf Hn) as (q1 & -> & _ & Hq1);
        [apply list_elem_of_here|].
      destruct (eval_total h q1 Hwf Hq1) as [[v1 Hv1]|Hv1]; rewrite Hv1; [|done].
      simpl. apply elem_of_cons in Hq as [[= <-]|Hq]; [congruence|].
      apply list_elem_of_singleton in Hq as <-. by rewrite IH.
Qed.

(** Conversely, after a successful [eval()] every variable below holds
    a value. *)
Lemma eval_ok_set h l x v c d name :
  wf_heap h -> eval h (Some l) = Ok v -> under h l x ->
  h !! x = Some (mkNode c (VariableNode d name)) -> is_nan c = false.
Proof.
  intros Hwf He Hu Hx. destruct (is_nan c) eqn:Hc; [|done].
  rewrite (eval_throws_unset h l x c d name Hwf Hu Hx Hc) in He. done.
Qed.

(** ** The loops of [EvaluationContext::calc] *)

Lemma calc_hit_eq l n w :
  heap w !! l = Some n -> is_nan (d_cachedValue n) = false ->
  needCalc (heap w) (Some l) = Ok false ->
  EvalNode_calc (Some l) w = (Ok (d_cachedValue n), using_cache w).
Proof.
  intros Hn Hc Hd. unfold EvalNode_calc, bind, query. simpl.
  by rewrite Hn, Hc, Hd.
Qed.

Lemma calc_miss_eq l n v w :
  heap w !! l = Some n ->
  is_nan (d_cachedValue n) = true \/ needCalc (heap w) (Some l) = Ok true ->
  eval (heap w) (Some l) = Ok v ->
  EvalNode_calc (Some l) w = (Ok v, recached l n v w).
Proof.
  intros Hn Hc He. unfold EvalNode_calc, bind, query. simpl. rewrite Hn.
  destruct (is_nan (d_cachedValue n)); simpl.
  - by rewrite He.
  - destruct Hc as [|Hc]; [done|]. by rewrite Hc, He.
Qed.

Lemma calc_throw_eq l n s w :
  heap w !! l = Some n ->
  is_nan (d_cachedValue n) = true \/ needCalc (heap w) (Some l) = Ok true ->
  eval (heap w) (Some l) = Throw s ->
  EvalNode_calc (Some l) w = (Throw s, w).
Proof.
  intros Hn Hc He. unfold EvalNode_calc, bind, query. simpl. rewrite Hn.
  destruct (is_nan (d_cachedValue n)); simpl.
  - by rewrite He.
  - destruct Hc as [|Hc]; [done|]. by rewrite Hc, He.
Qed.

Lemma calc_dirty_eq l n w :
  heap w !! l = Some n ->
  is_nan (d_cachedValue n) = true \/ needCalc (heap w) (Some l) = Ok true ->
  fst (EvalNode_calc (Some l) w) = eval (heap w) (Some l).
Proof.
  intros Hn Hor. unfold EvalNode_calc, bind, query. simpl. rewrite Hn. simpl.
  destruct (is_nan (d_cachedValue n)); simpl.
  - by destruct (eval (heap w) (Some l)).
  - destruct Hor as [|Hd]; [done|]. rewrite Hd.
    by destruct (eval (heap w) (Some l)).
Qed.


Lemma calc_throws_only p w s :
  fst (EvalNode_calc p w) = Throw s -> s = "Variable not set".
Proof.
  destruct (calc_outcome_holds p w) as [| | |r [-> | ->]]; simpl; congruence.
Qed.

Lemma calc_expressions_throws_only ctx w s :
  fst (calc_expressions ctx w) = Throw s -> s = "Variable not set".
Proof.
  unfold calc_expressions. revert w.
  induction (d_expressions ctx) as [|p ps IH]; intros w; simpl; [done|].
  unfold bind at 1 2.
  destruct (EvalNode_calc p w) as [[v|s'| |] w1] eqn:E; simpl; try done.
  - apply IH.
  - intros [= ->]. apply (calc_throws_only p w). by rewrite E.
Qed.

Lemma cache_no_throw x w s : fst (VariableNode_cache x w) <> Throw s.
Proof.
  unfold VariableNode_cache, bind, query, store, undefined. simpl.
  destruct x as [l|]; simpl; [|done].
  destruct (heap w !! l) as [[c d]|]; simpl; [|done]. by destruct d.
Qed.

Lemma cache_variables_no_throw ctx w s : fst (cache_variables ctx w) <> Throw s.
Proof.
  unfold cache_variables. revert w.
  induction (variables ctx) as [|x xs IH]; intros w; simpl; [done|].
  unfold bind.
  destruct (VariableNode_cache x w) as [[[]|s'| |] w1] eqn:E; simpl; try done.
  intros [= ->]. apply (cache_no_throw x w s). by rewrite E.
Qed.

Lemma cache_ok_flag x w w' :
  VariableNode_cache (Some x) w = (Ok tt, w') -> flag (heap w') x = Some false.
Proof.
  unfold VariableNode_cache, bind, query, store, undefined, flag. simpl.
  destruct (heap w !! x) as [[c d]|] eqn:Hn; simpl; [|done].
  destruct d; try done. intros [= <-]. simpl.
  rewrite list_lookup_insert_eq; [done|by eapply lookup_lt_Some].
Qed.

Lemma cache_flag_false y w x :
  flag (heap w) x = Some false ->
  flag (heap (snd (VariableNode_cache y w))) x = Some false.
Proof.
  unfold VariableNode_cache, bind, query, store, undefined. simpl.
  destruct y as [l|]; simpl; [|done].
  destruct (heap w !! l) as [[c d]|] eqn:Hn; simpl; [|done].
  destruct d; try done. simpl. unfold flag.
  destruct (decide (l = x)) as [->|Hne].
  - rewrite list_lookup_insert_eq; [done|by eapply lookup_lt_Some].
  - by rewrite list_lookup_insert_ne.
Qed.

Lemma for_each_cache_frozen xs w w' x :
  for_each VariableNode_cache xs w = (Ok tt, w') -> Some x ∈ xs ->
  flag (heap w') x = Some false.
Proof.
  revert w. induction xs as [|y xs IH]; intros w Hrun Hx.
  - by apply not_elem_of_nil in Hx.
  - apply for_each_cons_ok in Hrun as (w1 & Hy & Hrun).
    destruct (decide (Some x ∈ xs)) as [|Hnin]; [by eapply IH|].
    apply elem_of_cons in Hx as [<-|]; [|done].
    apply cache_ok_flag in Hy.
    replace w' with (snd (for_each VariableNode_cache xs w1)) by by rewrite Hrun.
    apply (for_each_inv (fun w => flag (heap w) x = Some false)); [|done].
    intros y w0. apply cache_flag_false.
Qed.

Lemma variables_spec ctx p :
  p ∈ variables ctx <-> exists name, d_variableMap ctx !! name = Some p.
Proof.
  unfold variables. rewrite list_elem_of_fmap. split.
  - intros ([k q] & -> & Hin). exists k. by apply elem_of_map_to_list.
  - intros [k Hk]. exists (k, p). split; [done|]. by apply elem_of_map_to_list.
Qed.

Lemma calc_expressions_kept ctx w : kept_flags w (snd (calc_expressions ctx w)).
Proof.
  unfold calc_expressions. apply for_each_rel; [apply _|].
  intros p w0. apply bind_rel; [apply _|apply calc_kept_flags|].
  intros; split; reflexivity.
Qed.

Lemma cache_variables_kept ctx w : kept_values w (snd (cache_variables ctx w)).
Proof.
  unfold cache_variables. apply for_each_rel; [apply _|].
  intros p w0. apply cache_kept_values.
Qed.

Lemma calc_settles w0 l q w :
  kept_flags w0 w ->
  (cached (heap w) l = cached (heap w0) l \/ settled w0 l w) ->
  let r := EvalNode_calc q w in
  kept_flags w0 (snd r) /\
  (cached (heap (snd r)) l = cached (heap w0) l \/ settled w0 l (snd r)) /\
  (settled w0 l w -> settled w0 l (snd r)) /\
  (q = Some l -> forall v, fst r = Ok v -> settled w0 l (snd r)).
Proof.
  intros Hk HI r. subst r.
  assert (kept_flags w0 (snd (EvalNode_calc q w))) as Hk'
    by (etrans; [exact Hk|apply calc_kept_flags]).
  split; [done|].
  destruct (calc_outcome_holds q w) as
    [l' n -> Hn Hnan Hclean|l' n v -> Hn _ He|l' n -> Hn _ He|r Hr]; simpl.
  - (* served from the cache *)
    split; [done|]. split; [done|]. intros [= ->] _ _.
    destruct HI as [HI|HI]; [|done].
    exists (d_cachedValue n). unfold cached, using_cache in *. simpl in *.
    rewrite Hn in HI |- *. simpl in *.
    split; [done|]. right. split; [done|]. split; [done|].
    by rewrite <- (kept_flags_needCalc w0 w).
  - (* recomputed *)
    destruct (decide (l' = l)) as [->|Hne].
    + assert (settled w0 l (recached l n v w)) as Hs.
      { exists v. unfold cached, recached. simpl.
        rewrite list_lookup_insert_eq by by eapply lookup_lt_Some.
        split; [done|]. left.
        by rewrite <- (kept_eval w0 w) by by apply kept_flags_kept. }
      auto.
    + assert (cached (heap (recached l' n v w)) l = cached (heap w) l) as Hc.
      { unfold cached, recached. simpl. by rewrite list_lookup_insert_ne. }
      unfold settled in *. simpl in Hc |- *. rewrite !Hc.
      split; [done|]. split; [done|]. congruence.
  - split; [done|]. split; [done|]. by intros _ v.
  - split; [done|]. split; [done|]. intros _ v. by destruct Hr as [-> | ->].
Qed.

(** After the first loop every registered expression is settled. *)
Lemma calc_expressions_settled ctx w w1 l :
  calc_expressions ctx w = (Ok tt, w1) -> Some l ∈ d_expressions ctx ->
  settled w l w1.
Proof.
  unfold calc_expressions.
  set (f := fun expression => let* _ := EvalNode_calc expression in ret tt).
  assert (forall ps w', kept_flags w w' ->
    (cached (heap w') l = cached (heap w) l \/ settled w l w') ->
    for_each f ps w' = (Ok tt, w1) ->
    (settled w l w' \/ Some l ∈ ps) -> settled w l w1) as Hgen.
  { induction ps as [|p ps IH]; intros w' Hk HI Hrun Hin.
    - simpl in Hrun. injection Hrun as <-.
      destruct Hin as [|Hin]; [done|]. by apply not_elem_of_nil in Hin.
    - apply for_each_cons_ok in Hrun as (w2 & Hp & Hrun).
      unfold f, bind, ret in Hp.
      destruct (EvalNode_calc p w') as [[v|s| |] w3] eqn:E; try done.
      injection Hp as ->.
      destruct (calc_settles w l p w' Hk HI) as (Hk2 & HI2 & Hs2 & Hs3).
      rewrite E in *. simpl in *.
      apply (IH w2 Hk2 HI2 Hrun).
      destruct Hin as [Hs|Hin]; [auto|].
      apply elem_of_cons in Hin as [<-|]; eauto. }
  intros Hrun Hin. apply (Hgen (d_expressions ctx) w); auto.
  split; reflexivity.
Qed.

Lemma settled_kept_values w0 l w w' :
  kept_values w w' -> settled w0 l w -> settled w0 l w'.
Proof.
  intros Hk (c & Hc & H). exists c. split; [|done].
  unfold cached. by rewrite (kept_values_cached w w' l Hk).
Qed.

Lemma calc_expressions_run ctx w w1 :
  calc_expressions ctx w = (Ok tt, w1) -> kept_flags w w1.
Proof. intros H. pose proof (calc_expressions_kept ctx w). by rewrite H in *. Qed.

Lemma cache_variables_run ctx w w1 :
  cache_variables ctx w = (Ok tt, w1) -> kept_values w w1.
Proof. intros H. pose proof (cache_variables_kept ctx w). by rewrite H in *. Qed.

(** ** Lookup and registration *)

(** C9.  Looking up a name that is not registered returns the empty
    pointer and leaves the name in the map, bound to the empty pointer,
    so the name is known afterwards; nothing else in the context
    changes. *)
Theorem lookup_unknown_registers ctx ename vname :
  isKnownExpression ename ctx = false ->
  isKnownVariable vname ctx = false ->
  (let (p, ctx') := getExpression ename ctx in
   p = None /\ isKnownExpression ename ctx' = true /\
   d_expressionMap ctx' = <[ename := None]> (d_expressionMap ctx) /\
   d_variableMap ctx' = d_variableMap ctx /\
   d_expressions ctx' = d_expressions ctx) /\
  (let (p, ctx') := getVariable vname ctx in
   p = None /\ isKnownVariable vname ctx' = true /\
   d_variableMap ctx' = <[vname := None]> (d_variableMap ctx) /\
   d_expressionMap ctx' = d_expressionMap ctx /\
   d_expressions ctx' = d_expressions ctx).
Proof.
  unfold isKnownExpression, isKnownVariable, getExpression, getVariable,
    map_subscript.
  intros He Hv. apply bool_decide_eq_false in He, Hv.
  apply eq_None_not_Some in He, Hv. rewrite He, Hv. simpl.
  split; (split; [done|]); (split; [|done]);
    apply bool_decide_eq_true; by rewrite lookup_insert_eq.
Qed.

(** C10.  Registering a second expression under a name already in use
    replaces the map entry and appends to the evaluation list: lookup by
    name gives the new node only, while every later pass still calls
    [calc()] on the old node, in its original position and before the new
    one, so an exception of the old node still ends the pass. *)
Theorem duplicate_registration ctx name e1 e2 :
  let ctx' := addExpression name e2 (addExpression name e1 ctx) in
  getExpression name ctx' = (e2, ctx') /\
  d_expressions ctx' = d_expressions ctx ++ [e1; e2] /\
  (forall w,
     calc_expressions ctx' w =
       (let* _ := calc_expressions ctx in
        let* _ := EvalNode_calc e1 in
        let* _ := EvalNode_calc e2 in
        ret tt) w) /\
  (forall target w w0 s w1,
     calc_expressions ctx w = (Ok tt, w0) ->
     EvalNode_calc e1 w0 = (Throw s, w1) ->
     EvaluationContext_calc ctx' target w = (Throw s, w1)).
Proof.
  intros ctx'.
  assert (d_expressions ctx' = d_expressions ctx ++ [e1; e2]) as Hl
    by (simpl; by rewrite <- app_assoc).
  assert (forall w, calc_expressions ctx' w =
       (let* _ := calc_expressions ctx in
        let* _ := EvalNode_calc e1 in
        let* _ := EvalNode_calc e2 in
        ret tt) w) as Hcalc.
  { intros w. unfold calc_expressions at 1. rewrite Hl, for_each_app.
    unfold calc_expressions, bind. simpl.
    destruct (for_each _ (d_expressions ctx) w) as [[[]|s| |] w0]; try done.
    unfold bind.
    destruct (EvalNode_calc e1 w0) as [[v1|s| |] w1]; try done. simpl.
    by destruct (EvalNode_calc e2 w1) as [[v2|s| |] w2]. }
  split; [|split; [done|split; [done|]]].
  - unfold getExpression, map_subscript, ctx'. simpl.
    by rewrite lookup_insert_eq.
  - intros target w w0 s w1 H0 H1. unfold EvaluationContext_calc.
    unfold bind at 1. rewrite Hcalc. unfold bind. by rewrite H0, H1.
Qed.

(** ** Variables *)

Lemma set_spec x v w w' :
  VariableNode_set (Some x) v w = (Ok tt, w') ->
  exists c d name,
    heap w !! x = Some (mkNode c (VariableNode d name)) /\
    w' = mkWorld (<[x := mkNode v (VariableNode true name)]> (heap w)) (cout w).
Proof.
  unfold VariableNode_set, bind, query, store, undefined. simpl.
  destruct (heap w !! x) as [[c d]|] eqn:Hn; simpl; [|done].
  destruct d; try done. intros [= <-]. eauto.
Qed.

Lemma cache_spec x w w' :
  VariableNode_cache (Some x) w = (Ok tt, w') ->
  exists c d name,
    heap w !! x = Some (mkNode c (VariableNode d name)) /\
    w' = mkWorld (<[x := mkNode c (VariableNode false name)]> (heap w)) (cout w).
Proof.
  unfold VariableNode_cache, bind, query, store, undefined. simpl.
  destruct (heap w !! x) as [[c d]|] eqn:Hn; simpl; [|done].
  destruct d; try done. intros [= <-]. eauto.
Qed.

Lemma calc_VariableNode x c d name w :
  heap w !! x = Some (mkNode c (VariableNode d name)) ->
  fst (EvalNode_calc (Some x) w) =
    if is_nan c then Throw "Variable not set" else Ok c.
Proof.
  intros Hn.
  pose proof (needCalc_VariableNode _ _ _ _ _ Hn) as Hd.
  pose proof (eval_VariableNode _ _ _ _ _ Hn) as He.
  unfold EvalNode_calc, bind, query. simpl. rewrite Hn. simpl.
  destruct (is_nan c); unfold ret; cbv beta iota; rewrite ?Hd;
    [by rewrite He|].
  destruct d; cbv beta iota; [by rewrite He|done].
Qed.

(** C3, as amended.  The cache of a node starts as NaN and NaN is what
    "not set" means: [eval()] and [calc()] on a variable throw
    "Variable not set" exactly when the cached value is NaN, which is
    the case for a freshly constructed variable and after [set(v)] with
    [v] NaN; after [set(v)] with any other [v] they return [v]. *)
Theorem variable_evaluate x v w w' :
  VariableNode_set (Some x) v w = (Ok tt, w') ->
  (is_nan v = false ->
     eval (heap w') (Some x) = Ok v /\ fst (EvalNode_calc (Some x) w') = Ok v) /\
  (is_nan v = true ->
     eval (heap w') (Some x) = Throw "Variable not set" /\
     fst (EvalNode_calc (Some x) w') = Throw "Variable not set") /\
  (forall name w0,
     let r := new_VariableNode name w0 in
     fst r = Ok (Some (length (heap w0))) /\
     eval (heap (snd r)) (Some (length (heap w0))) = Throw "Variable not set" /\
     fst (EvalNode_calc (Some (length (heap w0))) (snd r)) =
       Throw "Variable not set") /\
  (forall h y c d name, h !! y = Some (mkNode c (VariableNode d name)) ->
     (eval h (Some y) = Throw "Variable not set" <-> is_nan c = true) /\
     (is_nan c = false -> eval h (Some y) = Ok c)).
Proof.
  intros Hset. apply set_spec in Hset as (c & d & name & Hn & ->). simpl.
  assert (<[x:=mkNode v (VariableNode true name)]> (heap w) !! x
          = Some (mkNode v (VariableNode true name))) as Hx
    by (apply list_lookup_insert_eq; by eapply lookup_lt_Some).
  split; [|split; [|split]].
  - intros Hv. rewrite (eval_VariableNode _ _ _ _ _ Hx).
    rewrite (calc_VariableNode x v true name); [|done]. by rewrite Hv.
  - intros Hv. rewrite (eval_VariableNode _ _ _ _ _ Hx).
    rewrite (calc_VariableNode x v true name); [|done]. by rewrite Hv.
  - intros nm w0. simpl.
    assert ((heap w0 ++ [mkNode nan (VariableNode true nm)]) !! length (heap w0)
            = Some (mkNode nan (VariableNode true nm))) as Hnew
      by (by rewrite lookup_app_r, Nat.sub_diag).
    split; [done|]. split.
    + by rewrite (eval_VariableNode _ _ _ _ _ Hnew).
    + by rewrite (calc_VariableNode _ nan true nm).
  - intros h y c' d' nm Hy. rewrite (eval_VariableNode _ _ _ _ _ Hy).
    by destruct (is_nan c').
Qed.

(** ** Invariants of client programs *)

Section Invariant.
Variable I : world -> Prop.
Variables okset okcache : Ptr -> Prop.
Hypothesis Halloc : forall n w,
  fresh n -> (forall p, p ∈ operands n -> live (heap w) p = true) ->
  I w -> I (snd (alloc n w)).
Hypothesis Hprint : forall s w, I w -> I (snd (print s w)).
Hypothesis Hset : forall y v w,
  okset y -> I w -> I (snd (VariableNode_set y v w)).
Hypothesis Hcache : forall y w,
  okcache y -> I w -> I (snd (VariableNode_cache y w)).
Hypothesis Hcalc : forall p w, I w -> I (snd (EvalNode_calc p w)).

Lemma make_inv n s w :
  fresh n -> (forall p, p ∈ operands n -> live (heap w) p = true) ->
  I w ->
  I (snd ((let* _ := (let* p := alloc n in let* _ := print s in ret p)
           in ret tt) w)).
Proof.
  intros Hn Hp Hw. change (I (snd (print s (snd (alloc n w))))).
  apply Hprint, Halloc; auto.
Qed.

Lemma for_each_cache_inv xs w :
  (forall y, y ∈ xs -> okcache y) -> I w ->
  I (snd (for_each VariableNode_cache xs w)).
Proof.
  revert w. induction xs as [|y xs IH]; intros w Hok Hw; simpl; [done|].
  apply bind_inv; [| |done].
  - intros. apply Hcache; [|done]. apply Hok, list_elem_of_here.
  - intros _ w1 Hw1. apply IH; [|done].
    intros z Hz. by apply Hok, list_elem_of_further.
Qed.

Lemma recalculate_inv ctx name w :
  (forall y, y ∈ variables ctx -> okcache y) -> I w ->
  I (snd (EvaluationContext_calc ctx name w)).
Proof.
  intros Hok Hw. unfold EvaluationContext_calc.
  apply bind_inv; [| |done].
  - intros Hw0. unfold calc_expressions. apply for_each_inv; [|done].
    intros p w0 Hw1. apply bind_inv; auto.
  - intros _ w1 Hw1. apply bind_inv; [| |done].
    + intros. by apply for_each_cache_inv.
    + intros _ w2 Hw2. destruct (d_expressionMap ctx !! name); [|done].
      by apply Hcalc.
Qed.

Lemma perform_inv a w :
  allowed okset okcache a -> live_action a (heap w) = true -> I w ->
  I (snd (perform a w)).
Proof.
  intros Ha Hl Hw. destruct a; simpl in *.
  - apply make_inv; [done| |done].
    intros p Hp. by apply list_elem_of_singleton in Hp as ->.
  - apply make_inv; [done| |done]. intros p Hp. by apply not_elem_of_nil in Hp.
  - apply make_inv; [done| |done]. intros p Hp. by apply not_elem_of_nil in Hp.
  - apply make_inv; [done| |done].
    intros p Hp. by apply list_elem_of_singleton in Hp as ->.
  - apply andb_true_iff in Hl as [Hl1 Hl2].
    apply make_inv; [done| |done]. intros p Hp.
    apply elem_of_cons in Hp as [->|Hp]; [done|].
    by apply list_elem_of_singleton in Hp as ->.
  - by apply Hset.
  - by apply Hcache.
  - apply bind_inv; auto.
  - apply bind_inv; [| |done]; [|done]. intros. by apply recalculate_inv.
Qed.

Lemma run_inv prog w w' :
  Forall (allowed okset okcache) prog -> I w -> run prog w = Some w' -> I w'.
Proof.
  revert w. induction prog as [|a prog IH]; intros w Hall Hw Hrun.
  - by injection Hrun as <-.
  - apply Forall_cons in Hall as [Ha Hall]. simpl in Hrun.
    destruct (live_action a (heap w)) eqn:Hl; [|done].
    pose proof (perform_inv a w Ha Hl Hw) as Hw1.
    destruct (perform a w) as [[[]|s| |] w1]; try done; by apply (IH w1).
Qed.
End Invariant.

(** ** The dirty flag *)

Lemma flag_need_sim h h' x : Forall2 need_sim h h' -> flag h' x = flag h x.
Proof.
  intros HF. unfold flag.
  pose proof (deref_Forall2 _ h h' (Some x) HF) as Hd. simpl in Hd.
  destruct (h !! x) as [n|], (h' !! x) as [n'|]; try done.
  destruct Hd as [_ Hs]. unfold need_sim in Hs. by rewrite Hs.
Qed.

Lemma needCalc_flag h x b : flag h x = Some b -> needCalc h (Some x) = Ok b.
Proof.
  unfold flag. destruct (h !! x) as [[c d]|] eqn:Hn; [|done].
  destruct d; try done. simpl. intros [= ->].
  by rewrite (needCalc_VariableNode _ _ _ _ _ Hn).
Qed.

Lemma flag_app h n x : x < length h -> flag (h ++ [n]) x = flag h x.
Proof. intros Hx. unfold flag. by rewrite lookup_app_l. Qed.

Lemma flag_lt h x b : flag h x = Some b -> x < length h.
Proof.
  unfold flag. destruct (h !! x) eqn:Hn; [|done]. intros _.
  by eapply lookup_lt_Some.
Qed.

Lemma set_frame y v w l :
  y <> Some l -> heap (snd (VariableNode_set y v w)) !! l = heap w !! l.
Proof.
  intros Hne. unfold VariableNode_set, bind, query, store, undefined. simpl.
  destruct y as [x|]; simpl; [|done].
  destruct (heap w !! x) as [[c d]|] eqn:Hn; simpl; [|done].
  destruct d; try done. simpl. apply list_lookup_insert_ne. congruence.
Qed.

Lemma cache_frame y w l :
  y <> Some l -> heap (snd (VariableNode_cache y w)) !! l = heap w !! l.
Proof.
  intros Hne. unfold VariableNode_cache, bind, query, store, undefined. simpl.
  destruct y as [x|]; simpl; [|done].
  destruct (heap w !! x) as [[c d]|] eqn:Hn; simpl; [|done].
  destruct d; try done. simpl. apply list_lookup_insert_ne. congruence.
Qed.

Lemma set_cases y v w :
  (exists x c d name,
     y = Some x /\ heap w !! x = Some (mkNode c (VariableNode d name)) /\
     VariableNode_set y v w =
       (Ok tt, mkWorld (<[x := mkNode v (VariableNode true name)]> (heap w))
                       (cout w))) \/
  snd (VariableNode_set y v w) = w.
Proof.
  unfold VariableNode_set, bind, query, store, undefined. simpl.
  destruct y as [x|]; simpl; [|by right].
  destruct (heap w !! x) as [[c d]|] eqn:Hn; simpl; [|by right].
  destruct d; simpl; try (by right). left. by exists x, c, d_needCalc, d_name.
Qed.

Lemma cache_cases y w :
  (exists x c d name,
     y = Some x /\ heap w !! x = Some (mkNode c (VariableNode d name)) /\
     VariableNode_cache y w =
       (Ok tt, mkWorld (<[x := mkNode c (VariableNode false name)]> (heap w))
                       (cout w))) \/
  snd (VariableNode_cache y w) = w.
Proof.
  unfold VariableNode_cache, bind, query, store, undefined. simpl.
  destruct y as [x|]; simpl; [|by right].
  destruct (heap w !! x) as [[c d]|] eqn:Hn; simpl; [|by right].
  destruct d; simpl; try (by right). left. by exists x, c, d_needCalc, d_name.
Qed.

(** A dirty variable stays dirty as long as nothing calls [cache()] on
    it. *)
Lemma dirty_until_frozen x prog w w' :
  Forall (fun a => ~ freezes x a) prog ->
  flag (heap w) x = Some true -> run prog w = Some w' ->
  flag (heap w') x = Some true.
Proof.
  intros Hprog.
  apply (run_inv (fun w => flag (heap w) x = Some true)
           (fun _ => True) (fun y => y <> Some x)).
  - intros n w0 _ _ Hx. simpl. rewrite flag_app; [done|by eapply flag_lt].
  - done.
  - intros y v w0 _ Hx. destruct (decide (y = Some x)) as [->|Hne].
    + destruct (set_cases (Some x) v w0)
        as [(x' & c & d & name & [= <-] & Hn & ->)| ->]; [|done].
      unfold flag. simpl.
      rewrite list_lookup_insert_eq; [done|by eapply lookup_lt_Some].
    + unfold flag in *. by rewrite set_frame.
  - intros y w0 Hne Hx. unfold flag in *. by rewrite cache_frame.
  - intros p w0 Hx. destruct (calc_kept_flags p w0) as [_ HF].
    by rewrite (flag_need_sim _ _ x HF).
  - eapply Forall_impl; [exact Hprog|]. intros [] Ha; simpl in *; try done.
    intros y Hy ->. done.
Qed.

(** C6, as amended.  After [set(v)] the variable holds [v] and
    [needCalc()] is true, and it stays true through any calls that do
    not call [cache()] on it.  [cache()] clears the flag and changes
    nothing else: the cached value, the name, every other node and the
    output are as before, and [eval()] gives what it gave before -- [v]
    when [v] is not NaN (for a NaN it throws, before and after). *)
Theorem variable_set_then_freeze x v w w1 :
  VariableNode_set (Some x) v w = (Ok tt, w1) ->
  needCalc (heap w1) (Some x) = Ok true /\
  cached (heap w1) x = Some v /\
  (forall prog w2, Forall (fun a => ~ freezes x a) prog ->
     run prog w1 = Some w2 -> needCalc (heap w2) (Some x) = Ok true) /\
  (forall w2 w3, VariableNode_cache (Some x) w2 = (Ok tt, w3) ->
     needCalc (heap w3) (Some x) = Ok false /\
     (exists c d name,
        heap w2 !! x = Some (mkNode c (VariableNode d name)) /\
        heap w3 = <[x := mkNode c (VariableNode false name)]> (heap w2)) /\
     cout w3 = cout w2 /\
     (forall p, eval (heap w3) p = eval (heap w2) p)) /\
  (is_nan v = false ->
   forall w3, VariableNode_cache (Some x) w1 = (Ok tt, w3) ->
     eval (heap w3) (Some x) = Ok v /\
     fst (EvalNode_calc (Some x) w3) = Ok v).
Proof.
  intros Hset. apply set_spec in Hset as (c & d & name & Hn & ->). simpl.
  assert (x < length (heap w)) as Hlt by by eapply lookup_lt_Some.
  assert (flag (<[x:=mkNode v (VariableNode true name)]> (heap w)) x = Some true)
    as Hflag by (unfold flag; by rewrite list_lookup_insert_eq).
  split; [by apply needCalc_flag|].
  split; [unfold cached; by rewrite list_lookup_insert_eq|].
  split; [|split].
  - intros prog w2 Hprog Hrun. apply needCalc_flag.
    by eapply (dirty_until_frozen x prog _ w2 Hprog); [|exact Hrun].
  - intros w2 w3 Hc. pose proof (cache_kept_values (Some x) w2) as [K _].
    pose proof (cache_ok_flag x w2 w3 Hc) as Hf.
    rewrite Hc in K. simpl in K.
    apply cache_spec in Hc as (c2 & d2 & name2 & Hn2 & ->). simpl in *.
    split; [by apply needCalc_flag|]. split; [eauto|]. split; [done|].
    intros p. symmetry. by apply eval_sim_eq.
  - intros Hv w3 Hc. apply cache_spec in Hc as (c2 & d2 & name2 & Hn2 & ->).
    simpl in *. rewrite list_lookup_insert_eq in Hn2 by done.
    injection Hn2 as <- <- <-.
    assert (<[x:=mkNode v (VariableNode false name)]>
              (<[x:=mkNode v (VariableNode true name)]> (heap w)) !! x
            = Some (mkNode v (VariableNode false name))) as Hx
      by (rewrite list_lookup_insert_eq; [done|by rewrite length_insert]).
    rewrite (eval_VariableNode _ _ _ _ _ Hx).
    rewrite (calc_VariableNode x v false name); [|done]. by rewrite Hv.
Qed.

(** ** Constants and derived dirtiness *)

Lemma allowed_any a : allowed (fun _ => True) (fun _ => True) a.
Proof. by destruct a. Qed.

Lemma calc_ConstantNode l c w :
  heap w !! l = Some (mkNode c ConstantNode) ->
  fst (EvalNode_calc (Some l) w) = Ok c /\
  heap (snd (EvalNode_calc (Some l) w)) = heap w.
Proof.
  intros Hn.
  pose proof (needCalc_ConstantNode _ _ _ Hn) as Hd.
  pose proof (eval_ConstantNode _ _ _ Hn) as He.
  destruct (is_nan c) eqn:Hc.
  - rewrite (calc_miss_eq l _ c w Hn); [|by left|done]. simpl.
    split; [done|]. by apply list_insert_id.
  - by rewrite (calc_hit_eq l _ w Hn).
Qed.

(** A constant keeps its construction value whatever the client does. *)
Lemma constant_forever l c prog w w' :
  heap w !! l = Some (mkNode c ConstantNode) -> run prog w = Some w' ->
  heap w' !! l = Some (mkNode c ConstantNode).
Proof.
  apply (run_inv (fun w => heap w !! l = Some (mkNode c ConstantNode))
           (fun _ => True) (fun _ => True)).
  - intros n w0 _ _ Hl. simpl. rewrite lookup_app_l; [done|].
    by eapply lookup_lt_Some.
  - done.
  - intros y v w0 _ Hl.
    destruct (set_cases y v w0) as [(x & c' & d & nm & -> & Hn & ->)| ->];
      [|done].
    simpl. rewrite list_lookup_insert_ne; [done|]. intros ->. congruence.
  - intros y w0 _ Hl.
    destruct (cache_cases y w0) as [(x & c' & d & nm & -> & Hn & ->)| ->];
      [|done].
    simpl. rewrite list_lookup_insert_ne; [done|]. intros ->. congruence.
  - intros p w0 Hl. destruct (decide (p = Some l)) as [->|Hne].
    + destruct (calc_ConstantNode l c w0 Hl) as [_ ->]. done.
    + by rewrite calc_frame.
  - apply Forall_forall. intros a _. apply allowed_any.
Qed.

(** C5.  [needCalc()] is a function of the store that writes nothing.
    It is false for a constant, whose [eval()] and [calc()] return the
    construction value at any later time; for a binary operator it is
    the disjunction of the operands' answers, for a unary operator and
    for an expression the operand's answer.  It reads no cached value:
    stores with the same derived parts give the same answers.  The
    answers derive from the stored flags of the variables: for a
    variable [needCalc()] is its flag.  The value of a constant is the
    argument of its constructor: the node [ConstantNode(value)] makes
    answers [value] to [eval()] and [calc()] and is never dirty,
    whatever the client does afterwards. *)
Theorem needCalc_per_class h :
  wf_heap h ->
  (forall l c, h !! l = Some (mkNode c ConstantNode) ->
     needCalc h (Some l) = Ok false /\ eval h (Some l) = Ok c /\
     forall prog out w', run prog (mkWorld h out) = Some w' ->
       needCalc (heap w') (Some l) = Ok false /\
       eval (heap w') (Some l) = Ok c /\
       fst (EvalNode_calc (Some l) w') = Ok c) /\
  (forall l c e1 e2 f, h !! l = Some (mkNode c (BinaryOperatorNode e1 e2 f)) ->
     exists b1 b2, needCalc h e1 = Ok b1 /\ needCalc h e2 = Ok b2 /\
                   needCalc h (Some l) = Ok (b1 || b2)) /\
  (forall l c e f, h !! l = Some (mkNode c (UnaryOperatorNode e f)) ->
     needCalc h (Some l) = needCalc h e) /\
  (forall l c e name, h !! l = Some (mkNode c (ExpressionNode e name)) ->
     needCalc h (Some l) = needCalc h e) /\
  (forall h' p, Forall2 need_sim h h' -> needCalc h' p = needCalc h p) /\
  (forall l c d name, h !! l = Some (mkNode c (VariableNode d name)) ->
     needCalc h (Some l) = Ok d) /\
  (forall value out,
     fst (new_ConstantNode value (mkWorld h out)) = Ok (Some (length h)) /\
     heap (snd (new_ConstantNode value (mkWorld h out))) !! length h
       = Some (mkNode value ConstantNode) /\
     forall prog w',
       run prog (snd (new_ConstantNode value (mkWorld h out))) = Some w' ->
       needCalc (heap w') (Some (length h)) = Ok false /\
       eval (heap w') (Some (length h)) = Ok value /\
       fst (EvalNode_calc (Some (length h)) w') = Ok value).
Proof.
  intros Hwf. split; [|split; [|split; [|split; [|split; [|split]]]]].
  - intros l c Hn.
    split; [by apply (needCalc_ConstantNode h l c)|].
    split; [by apply eval_ConstantNode|].
    intros prog out w' Hrun.
    pose proof (constant_forever l c prog (mkWorld h out) w' Hn Hrun) as Hn'.
    split; [by apply (needCalc_ConstantNode _ l c)|].
    split; [by apply eval_ConstantNode|].
    by apply calc_ConstantNode.
  - intros l c e1 e2 f Hn.
    rewrite (needCalc_BinaryOperatorNode h Hwf l c e1 e2 f Hn).
    destruct (wf_operand h l _ e1 Hwf Hn) as (q1 & -> & _ & Hq1);
      [apply list_elem_of_here|].
    destruct (wf_operand h l _ e2 Hwf Hn) as (q2 & -> & _ & Hq2);
      [apply list_elem_of_further, list_elem_of_here|].
    destruct (needCalc_total h q1 Hwf Hq1) as [b1 Hb1].
    destruct (needCalc_total h q2 Hwf Hq2) as [b2 Hb2].
    exists b1, b2. rewrite Hb1, Hb2. simpl. by destruct b1.
  - intros l c e f. by apply needCalc_UnaryOperatorNode.
  - intros l c e name. by apply needCalc_ExpressionNode.
  - intros h' p HF. symmetry. by apply needCalc_sim_eq.
  - intros l c d name. by apply needCalc_VariableNode.
  - intros value out.
    assert (heap (snd (new_ConstantNode value (mkWorld h out))) !! length h
            = Some (mkNode value ConstantNode)) as Hnew
      by (simpl; by rewrite lookup_app_r, Nat.sub_diag).
    split; [done|]. split; [done|].
    intros prog w' Hrun.
    pose proof (constant_forever _ value prog _ w' Hnew Hrun) as Hn'.
    split; [by apply (needCalc_ConstantNode _ _ value)|].
    split; [by apply eval_ConstantNode|].
    by apply calc_ConstantNode.
Qed.

(** ** Variables that were never set *)

Lemma under_same_operands h h' l x :
  Forall2 same_operands h' h -> under h' l x -> under h l x.
Proof.
  intros HF. induction 1 as [|l n' q x Hn' Hq _ IH]; [constructor|].
  destruct (Forall2_lookup_l _ _ _ _ _ HF Hn') as (n & Hn & Hs).
  unfold same_operands in Hs. rewrite Hs in Hq. by eapply under_operand.
Qed.

Lemma under_app h n l x :
  wf_heap h -> l < length h -> under (h ++ [n]) l x ->
  under h l x /\ x < length h.
Proof.
  intros Hwf Hl Hu. induction Hu as [|l n' q x Hn' Hq _ IH].
  - split; [constructor|done].
  - rewrite lookup_app_l in Hn' by done.
    destruct (wf_operand h l n' (Some q) Hwf Hn' Hq) as (q' & [= <-] & _ & Hlt).
    destruct (IH Hlt) as [Hu' Hx]. split; [|done]. by eapply under_operand.
Qed.

Lemma under_leaf h l x n :
  h !! l = Some n -> operands n = [] -> under h l x -> x = l.
Proof.
  intros Hn Hop Hu. destruct Hu as [|l n' q x Hn' Hq _]; [done|].
  rewrite Hn in Hn'. injection Hn' as <-. rewrite Hop in Hq.
  by apply not_elem_of_nil in Hq.
Qed.

Lemma wf_heap_app h n :
  wf_heap h -> (forall p, p ∈ operands n -> live h p = true) ->
  wf_heap (h ++ [n]).
Proof.
  intros Hwf Hlive l m p Hm Hp.
  destruct (decide (l < length h)) as [Hl|Hl].
  - rewrite lookup_app_l in Hm by done. eauto.
  - rewrite lookup_app_r in Hm by lia.
    destruct (l - length h) as [|k] eqn:Hk; [|by destruct k].
    injection Hm as <-. specialize (Hlive p Hp). destruct p as [q|]; [|done].
    apply bool_decide_eq_true in Hlive. exists q. split; [done|]. lia.
Qed.

Lemma vouched_alloc S n w :
  fresh n -> (forall p, p ∈ operands n -> live (heap w) p = true) ->
  vouched S w -> vouched S (snd (alloc n w)).
Proof.
  intros Hn Hlive [Hwf HS]. split; simpl; [by apply wf_heap_app|].
  intros l m Hm Hd Hc x Hu Hx.
  destruct (decide (l < length (heap w))) as [Hl|Hl].
  - destruct (under_app _ _ _ _ Hwf Hl Hu) as [Hu' Hlt].
    rewrite lookup_app_l in Hm by done. rewrite flag_app in Hx by done.
    by eapply HS.
  - rewrite lookup_app_r in Hm by lia.
    destruct (l - length (heap w)) as [|k] eqn:Hk; [|by destruct k].
    injection Hm as <-. unfold fresh in Hn.
    destruct (derived n); try done; try congruence.
    destruct Hn. congruence.
Qed.

Lemma vouched_set S y v w :
  (forall x, y = Some x -> S x) -> vouched S w ->
  vouched S (snd (VariableNode_set y v w)).
Proof.
  intros Hy [Hwf HS].
  destruct (set_cases y v w) as [(x & c & d & nm & -> & Hn & ->)| ->]; [|done].
  assert (Forall2 same_operands
            (<[x:=mkNode v (VariableNode true nm)]> (heap w)) (heap w)) as HF.
  { rewrite <- (list_insert_id (heap w) x _ Hn) at 2.
    apply Forall2_insert; [|done]. by apply Forall_Forall2_diag, Forall_forall. }
  split; simpl.
  - by apply (wf_heap_insert _ _ _ _ Hwf Hn).
  - intros l m Hm Hd Hc x' Hu Hx.
    destruct (decide (l = x)) as [->|Hne].
    + rewrite list_lookup_insert_eq in Hm by by eapply lookup_lt_Some.
      injection Hm as <-.
      assert (x' = x) as ->; [|by apply Hy].
      refine (under_leaf _ x x' (mkNode v (VariableNode true nm)) _ _ Hu);
        [|done].
      apply list_lookup_insert_eq. by eapply lookup_lt_Some.
    + rewrite list_lookup_insert_ne in Hm by done.
      apply (under_same_operands _ _ _ _ HF) in Hu.
      apply (HS l m Hm Hd Hc x' Hu). unfold flag in *.
      destruct (decide (x' = x)) as [->|Hne'].
      * by rewrite Hn.
      * by rewrite list_lookup_insert_ne in Hx.
Qed.

Lemma vouched_kept S w w' :
  kept w w' ->
  (forall l n', heap w' !! l = Some n' -> derived n' <> ConstantNode ->
     is_nan (d_cachedValue n') = false ->
     (exists n, heap w !! l = Some n /\ derived n <> ConstantNode /\
                is_nan (d_cachedValue n) = false) \/
     forall x, under (heap w) l x -> is_Some (flag (heap w) x) -> S x) ->
  vouched S w -> vouched S w'.
Proof.
  intros K Hnew [Hwf HS]. split; [by apply (kept_wf w w')|].
  intros l n' Hn' Hd Hc x Hu Hx.
  apply (under_sim_inv _ _ _ _ K) in Hu. apply (flag_sim _ _ x K) in Hx.
  destruct (Hnew l n' Hn' Hd Hc) as [(n & Hn & Hd' & Hc')|H]; eauto.
Qed.

Lemma vouched_cache S y w :
  vouched S w -> vouched S (snd (VariableNode_cache y w)).
Proof.
  intros Hv. destruct (cache_kept_values y w) as [K Hc].
  apply (vouched_kept S w _ K); [|done].
  intros l n' Hn' Hd Hnan. left.
  destruct (Forall2_lookup_r _ _ _ _ _ K Hn') as (n & Hn & Hs).
  exists n. split; [done|].
  assert (d_cachedValue n = d_cachedValue n') as Hcv.
  { apply (f_equal (fun k => k !! l)) in Hc.
    rewrite !list_lookup_fmap, Hn, Hn' in Hc. by injection Hc. }
  rewrite Hcv. split; [|done].
  unfold eval_sim in Hs. destruct (derived n), (derived n'); done.
Qed.

Lemma vouched_calc S p w :
  vouched S w -> vouched S (snd (EvalNode_calc p w)).
Proof.
  intros Hv. pose proof (calc_kept_flags p w) as [K _].
  destruct (calc_outcome_holds p w) as [|l n v -> Hn _ He| |]; try done.
  apply (vouched_kept S w _ K); [|done]. simpl in *.
  intros l' n' Hn' Hd Hnan. destruct (decide (l' = l)) as [->|Hne].
  - right. intros x Hu [b Hx]. destruct Hv as [Hwf HS].
    unfold flag in Hx. destruct (heap w !! x) as [[c d]|] eqn:Hnx; [|done].
    destruct d as [| |dn nm| |]; try done.
    apply (HS x _ Hnx); [done| |constructor|].
    + by apply (eval_ok_set (heap w) l x v c dn nm).
    + unfold flag. by rewrite Hnx.
  - left. rewrite list_lookup_insert_ne in Hn' by done. eauto.
Qed.

Lemma vouched_run prog w :
  run prog empty_world = Some w -> vouched (fun x => Exists (sets x) prog) w.
Proof.
  apply (run_inv (vouched (fun x => Exists (sets x) prog))
           (fun y => forall x, y = Some x -> Exists (sets x) prog)
           (fun _ => True)).
  - apply vouched_alloc.
  - intros s w0 Hv. exact Hv.
  - apply vouched_set.
  - intros y w0 _. apply vouched_cache.
  - apply vouched_calc.
  - apply Forall_forall. intros a Ha. destruct a; simpl; try done.
    intros x0 ->. apply Exists_exists. by exists (SetVariable (Some x0) value).
  - split; [intros l n p Hl; simpl in Hl; by rewrite lookup_nil in Hl|].
    intros l n Hl. simpl in Hl. by rewrite lookup_nil in Hl.
Qed.

(** C8.  In any world a client program can reach, a node that is not
    a constant and has below it a variable on which [set()] was never
    called throws "Variable not set" from [calc()] and from [eval()];
    the world is left as it was, with no value cached on the way. *)
Theorem unset_variable_propagates prog w l n x :
  run prog empty_world = Some w ->
  heap w !! l = Some n -> derived n <> ConstantNode ->
  under (heap w) l x -> is_Some (flag (heap w) x) ->
  ~ Exists (sets x) prog ->
  EvalNode_calc (Some l) w = (Throw "Variable not set", w) /\
  eval (heap w) (Some l) = Throw "Variable not set".
Proof.
  intros Hrun Hn Hd Hu Hx Hnever.
  destruct (vouched_run prog w Hrun) as [Hwf HS].
  assert (eval (heap w) (Some l) = Throw "Variable not set") as He.
  { destruct Hx as [b Hx]. unfold flag in Hx.
    destruct (heap w !! x) as [[c d]|] eqn:Hnx; [|done].
    destruct d as [| |dn nm| |]; try done.
    apply (eval_throws_unset _ l x c dn nm Hwf Hu Hnx).
    destruct (is_nan c) eqn:Hc; [done|]. exfalso. apply Hnever.
    apply (HS x _ Hnx); [done|done|constructor|].
    unfold flag. by rewrite Hnx. }
  split; [|done]. apply (calc_throw_eq l n); [done| |done]. left.
  destruct (is_nan (d_cachedValue n)) eqn:Hc; [done|]. exfalso. apply Hnever.
  by apply (HS l n Hn Hd Hc x Hu Hx).
Qed.

(** ** Memoization reaches the caller only *)


(** ** The recalculation pass *)

(** A node with a dirty variable below it needs recalculation. *)
Lemma needCalc_dirty h l x :
  wf_heap h -> under h l x -> flag h x = Some true ->
  needCalc h (Some l) = Ok true.
Proof.
  intros Hwf Hu Hx. induction Hu as [x|l n q x Hn Hq _ IH].
  - by apply needCalc_flag.
  - specialize (IH Hx). destruct n as [c d]. unfold operands in Hq.
    destruct d as [e nm| |dn nm|e f|e1 e2 f]; simpl in Hq.
    + rewrite (needCalc_ExpressionNode h Hwf l c e nm Hn).
      apply list_elem_of_singleton in Hq as <-. done.
    + by apply not_elem_of_nil in Hq.
    + by apply not_elem_of_nil in Hq.
    + rewrite (needCalc_UnaryOperatorNode h Hwf l c e f Hn).
      apply list_elem_of_singleton in Hq as <-. done.
    + rewrite (needCalc_BinaryOperatorNode h Hwf l c e1 e2 f Hn).
      destruct (wf_operand h l _ e1 Hwf Hn) as (q1 & -> & _ & Hq1);
        [apply list_elem_of_here|].
      destruct (needCalc_total h q1 Hwf Hq1) as [b1 Hb1]. rewrite Hb1. simpl.
      destruct b1; [done|].
      apply elem_of_cons in Hq as [[= <-]|Hq]; [congruence|].
      apply list_elem_of_singleton in Hq as <-. done.
Qed.

Lemma needCalc_true_inv h l :
  wf_heap h -> needCalc h (Some l) = Ok true ->
  exists x, under h l x /\ flag h x = Some true.
Proof.
  intros Hwf. induction l as [l IH] using lt_wf_ind. intros Hd.
  destruct (h !! l) as [[c d]|] eqn:Hn.
  2:{ unfold needCalc in Hd. cbn [needCalc_fuel deref] in Hd.
      by rewrite Hn in Hd. }
  assert (forall p, p ∈ operands (mkNode c d) -> needCalc h p = Ok true ->
            exists x, under h l x /\ flag h x = Some true) as Hop.
  { intros p Hp Hdp.
    destruct (wf_operand h l _ p Hwf Hn Hp) as (q & -> & Hq & _).
    destruct (IH q Hq Hdp) as (x & Hu & Hx). exists x. split; [|done].
    by eapply under_operand. }
  unfold operands in Hop. destruct d as [e nm| |dn nm|e f|e1 e2 f]; simpl in Hop.
  - rewrite (needCalc_ExpressionNode h Hwf l c e nm Hn) in Hd.
    apply (Hop e); [apply list_elem_of_here|done].
  - by rewrite (needCalc_ConstantNode h l c Hn) in Hd.
  - rewrite (needCalc_VariableNode h l c dn nm Hn) in Hd. injection Hd as ->.
    exists l. split; [constructor|]. unfold flag. by rewrite Hn.
  - rewrite (needCalc_UnaryOperatorNode h Hwf l c e f Hn) in Hd.
    apply (Hop e); [apply list_elem_of_here|done].
  - rewrite (needCalc_BinaryOperatorNode h Hwf l c e1 e2 f Hn) in Hd.
    destruct (needCalc h e1) as [[]| | |] eqn:H1; simpl in Hd; try done.
    + apply (Hop e1); [apply list_elem_of_here|done].
    + apply (Hop e2); [apply list_elem_of_further, list_elem_of_here|done].
Qed.





(** A name is a key of the expression map once it was registered or
    looked up, and only then. *)
Lemma call_context_key c ctx name :
  d_expressionMap (call_context c ctx) !! name = None <->
  d_expressionMap ctx !! name = None /\
  c <> GetExpression name /\ (forall p, c <> AddExpression name p).
Proof.
  destruct c as [nm|nm|nm e|nm v]; simpl.
  - unfold getExpression, map_subscript.
    destruct (decide (nm = name)) as [->|Hne].
    + destruct (d_expressionMap ctx !! name) as [p|] eqn:Hp; simpl.
      * rewrite Hp. split; [done|]. by intros [? _].
      * rewrite lookup_insert_eq. split; [done|]. by intros (_ & ? & _).
    + destruct (d_expressionMap ctx !! nm) as [p|] eqn:Hp; simpl.
      * split; [|by intros [? _]]. intros H. by repeat split; [|congruence|].
      * rewrite lookup_insert_ne by done.
        split; [|by intros [? _]]. intros H. by repeat split; [|congruence|].
  - unfold getVariable, map_subscript.
    destruct (d_variableMap ctx !! nm) as [p|]; simpl;
      (split; [|by intros [? _]]); intros H; by repeat split.
  - destruct (decide (nm = name)) as [->|Hne].
    + rewrite lookup_insert_eq. split; [done|]. intros (_ & _ & H).
      by specialize (H e).
    + rewrite lookup_insert_ne by done.
      split; [|by intros [? _]]. intros H. by repeat split; [| |congruence].
  - split; [|by intros [? _]]. intros H. by repeat split.
Qed.

Lemma call_contexts_key cs ctx name :
  d_expressionMap (call_contexts cs ctx) !! name = None <->
  d_expressionMap ctx !! name = None /\
  Forall (fun c => c <> GetExpression name /\
                   forall p, c <> AddExpression name p) cs.
Proof.
  unfold call_contexts. revert ctx.
  induction cs as [|c cs IH]; intros ctx; simpl.
  - split; [by intros ?; split|by intros [? _]].
  - rewrite IH, call_context_key, Forall_cons. tauto.
Qed.

(** C4, as amended.  [EvaluationContext::calc] throws "Not found"
    exactly when the name is not a key of the expression map -- it was
    neither registered nor looked up -- and both loops ran to
    completion.  An exception raised in the first loop is the one the
    caller sees instead: it is "Variable not set", and then no flag has
    changed, so no variable was frozen.  The lookup comes after the
    loops: once they have completed every registered expression is
    settled and every registered variable is clean, whatever the name.
    A name that was only looked up is a key, bound to the empty pointer:
    for it the call never throws "Not found", and after the loops it
    dereferences the empty pointer. *)
Theorem recalculate_unknown ctx name w :
  (isKnownExpression name ctx = false <-> d_expressionMap ctx !! name = None) /\
  (forall cs, ctx = call_contexts cs new_EvaluationContext ->
     (d_expressionMap ctx !! name = None <->
      Forall (fun c => c <> GetExpression name /\
                       forall p, c <> AddExpression name p) cs)) /\
  (forall w', EvaluationContext_calc ctx name w = (Throw "Not found", w') <->
     d_expressionMap ctx !! name = None /\
     exists w1, calc_expressions ctx w = (Ok tt, w1) /\
                cache_variables ctx w1 = (Ok tt, w')) /\
  (forall s w1, calc_expressions ctx w = (Throw s, w1) ->
     EvaluationContext_calc ctx name w = (Throw s, w1) /\
     s = "Variable not set" /\
     (forall x, flag (heap w1) x = flag (heap w) x)) /\
  (forall w1 w', calc_expressions ctx w = (Ok tt, w1) ->
     cache_variables ctx w1 = (Ok tt, w') ->
     (forall l, Some l ∈ d_expressions ctx -> settled w l w') /\
     (forall x, Some x ∈ variables ctx -> flag (heap w') x = Some false) /\
     (d_expressionMap ctx !! name = Some None ->
        EvaluationContext_calc ctx name w = (Undef, w'))) /\
  (forall ctx0, isKnownExpression name ctx0 = false ->
     ctx = snd (getExpression name ctx0) ->
     fst (getExpression name ctx0) = None /\
     d_expressionMap ctx !! name = Some None /\
     forall w', EvaluationContext_calc ctx name w <> (Throw "Not found", w')).
Proof.
  assert (forall w', EvaluationContext_calc ctx name w = (Throw "Not found", w') <->
     d_expressionMap ctx !! name = None /\
     exists w1, calc_expressions ctx w = (Ok tt, w1) /\
                cache_variables ctx w1 = (Ok tt, w')) as Hiff.
  { intros w'. unfold EvaluationContext_calc, bind. split.
    + destruct (calc_expressions ctx w) as [[[]|s| |] w1] eqn:H1; try done.
      2:{ intros [= -> ->].
          pose proof (calc_expressions_throws_only ctx w "Not found") as H.
          rewrite H1 in H. by specialize (H eq_refl). }
      destruct (cache_variables ctx w1) as [[[]|s| |] w2] eqn:H2; try done.
      2:{ intros [= -> ->].
          pose proof (cache_variables_no_throw ctx w1 "Not found") as H.
          by rewrite H2 in H. }
      destruct (d_expressionMap ctx !! name) as [p|].
      * intros H. pose proof (calc_throws_only p w2 "Not found") as H'.
        rewrite H in H'. by specialize (H' eq_refl).
      * intros [= <-]. eauto.
    + intros (Hname & w1 & H1 & H2). by rewrite H1, H2, Hname. }
  assert (forall ctx', isKnownExpression name ctx' = false <->
            d_expressionMap ctx' !! name = None) as Hknown.
  { intros ctx'. unfold isKnownExpression.
    rewrite bool_decide_eq_false, <- eq_None_not_Some. done. }
  split; [apply Hknown|]. split.
  { intros cs ->. rewrite call_contexts_key. simpl. rewrite lookup_empty. tauto. }
  split; [done|]. split.
  { intros s w1 H1. split.
    - unfold EvaluationContext_calc, bind. by rewrite H1.
    - split.
      + apply (calc_expressions_throws_only ctx w). by rewrite H1.
      + intros x. pose proof (calc_expressions_kept ctx w) as [_ K].
        rewrite H1 in K. by apply flag_need_sim. }
  split.
  - intros w1 w' H1 H2. split; [|split].
    + intros l Hl. apply (settled_kept_values w l w1 w').
      * by eapply cache_variables_run.
      * by eapply calc_expressions_settled.
    + intros x. apply (for_each_cache_frozen _ w1 w' x H2).
    + intros Hname. unfold EvaluationContext_calc, bind.
      by rewrite H1, H2, Hname.
  - intros ctx0 Hk ->. apply Hknown in Hk.
    assert (d_expressionMap (snd (getExpression name ctx0)) !! name = Some None)
      as Hb by (unfold getExpression, map_subscript; rewrite Hk; simpl;
                by rewrite lookup_insert_eq).
    split; [unfold getExpression, map_subscript; by rewrite Hk|].
    split; [done|].
    intros w' Hthrow. apply Hiff in Hthrow as [Hnone _]. by rewrite Hb in Hnone.
Qed.

(** ** Deciding well-formedness *)

Lemma wf_from_sound k h :
  wf_from k h = true ->
  forall l n p, h !! l = Some n -> p ∈ operands n ->
    exists q, p = Some q /\ q < k + l.
Proof.
  revert k. induction h as [|m h IH]; intros k Hwf l n p Hn Hp; [done|].
  simpl in Hwf. apply andb_true_iff in Hwf as [Hm Hh].
  destruct l as [|l]; simpl in Hn.
  - injection Hn as <-. rewrite forallb_forall in Hm.
    apply list_elem_of_In, Hm in Hp. destruct p as [q|]; [|done].
    apply Nat.ltb_lt in Hp. exists q. split; [done|lia].
  - destruct (IH (S k) Hh l n p Hn Hp) as (q & -> & Hq).
    exists q. split; [done|lia].
Qed.

Lemma wf_check h : wf_from 0 h = true -> wf_heap h.
Proof. intros H l n p. by apply (wf_from_sound 0 h H). Qed.

Lemma under_le h l x : wf_heap h -> under h l x -> x <= l.
Proof.
  intros Hwf. induction 1 as [|l n q x Hn Hq _ IH]; [done|].
  destruct (Hwf l n (Some q) Hn Hq) as (q' & [= <-] & Hlt). lia.
Qed.

(** ** The shared-subgraph scenario *)

(** C7.  With [E1 = a*2] and [E2 = a*3] over one variable [a]:
    after [a.set(5)] and recalculating "E1", recalculating "E2" gives
    15, also when an earlier pass had cached [E2] for another value of
    [a].  The first call has already stored 15 in [E2], before it froze
    [a]. *)
Theorem shared_subgraph_consistent :
  fst (shared_subgraph None empty_world) = Ok (10%float, 15%float) /\
  fst (shared_subgraph (Some 1%float) empty_world) = Ok (10%float, 15%float) /\
  cached (heap (snd (shared_first_pass None empty_world))) 6 = Some 15%float /\
  cached (heap (snd (shared_first_pass (Some 1%float) empty_world))) 6
    = Some 15%float /\
  flag (heap (snd (shared_first_pass (Some 1%float) empty_world))) 0
    = Some false.
Proof. repeat split; vm_compute; reflexivity. Qed.

(** ** Concrete runs *)





(** C3 as stated fails for [v] NaN: the variable has been set, and
    [eval()] and [calc()] still throw "Variable not set". *)
Lemma set_nan_is_not_set :
  let w := snd ((let* a := new_VariableNode "a" in VariableNode_set a nan)
                  empty_world) in
  fst ((let* a := new_VariableNode "a" in VariableNode_set a nan) empty_world)
    = Ok tt /\
  eval (heap w) (Some 0) = Throw "Variable not set" /\
  fst (EvalNode_calc (Some 0) w) = Throw "Variable not set".
Proof. repeat split; vm_compute; reflexivity. Qed.

(** The variable of the scenario after [set(5)]. *)
Lemma variable_evaluate_witness :
  eval (heap demo_world) (Some 0) = Ok 5%float /\
  fst (EvalNode_calc (Some 0) demo_world) = Ok 5%float.
Proof.
  refine (proj1 (variable_evaluate 0 5%float (snd (build_shared empty_world))
    demo_world _) _).
  - vm_compute. reflexivity.
  - vm_compute. reflexivity.
Defined.

(** C4 as stated fails when the first loop throws: the name is not
    registered, yet the caller sees "Variable not set", and the
    registered variable [b] has not been frozen. *)
Lemma unknown_name_after_unset_variable :
  d_expressionMap unset_ctx !! "missing" = None /\
  fst (EvaluationContext_calc unset_ctx "missing" unset_world)
    = Throw "Variable not set" /\
  fst (EvaluationContext_calc unset_ctx "missing" unset_world)
    <> Throw "Not found" /\
  Some 1 ∈ variables unset_ctx /\
  flag (heap (snd (EvaluationContext_calc unset_ctx "missing" unset_world))) 1
    = Some true.
Proof.
  repeat split; try (vm_compute; reflexivity).
  - vm_compute. discriminate.
  - apply variables_spec. exists "b". vm_compute. reflexivity.
Qed.

(** The operator [a*2] of the scenario: dirty through its left
    operand. *)
Lemma needCalc_per_class_witness :
  exists b1 b2,
    needCalc (heap demo_world) (Some 0) = Ok b1 /\
    needCalc (heap demo_world) (Some 1) = Ok b2 /\
    needCalc (heap demo_world) (Some 3) = Ok (b1 || b2).
Proof.
  refine (proj1 (proj2 (needCalc_per_class (heap demo_world) _))
            3 nan (Some 0) (Some 1) times _).
  - apply wf_check. vm_compute. reflexivity.
  - vm_compute. reflexivity.
Defined.

(** C6 as stated fails for [v] NaN: [cache()] leaves the value alone,
    but [eval()] after it does not return [v], it throws. *)
Lemma freeze_nan_still_throws :
  let m := (let* a := new_VariableNode "a" in
            let* _ := VariableNode_set a nan in
            VariableNode_cache a) in
  fst (m empty_world) = Ok tt /\
  cached (heap (snd (m empty_world))) 0 = Some nan /\
  flag (heap (snd (m empty_world))) 0 = Some false /\
  eval (heap (snd (m empty_world))) (Some 0) = Throw "Variable not set" /\
  eval (heap (snd (m empty_world))) (Some 0) <> Ok nan.
Proof. repeat split; try (vm_compute; reflexivity). vm_compute. discriminate. Qed.

(** The variable of the scenario right after [set(5)]. *)
Lemma variable_set_then_freeze_witness :
  needCalc (heap demo_world) (Some 0) = Ok true /\
  cached (heap demo_world) 0 = Some 5%float.
Proof.
  pose proof (variable_set_then_freeze 0 5%float
    (snd (build_shared empty_world)) demo_world) as H.
  destruct H as (H1 & H2 & _); [vm_compute; reflexivity|]. by split.
Defined.

(** The client of [unset_prog]: the pass threw, [a] was frozen
    without ever being set, and the expression still throws. *)
Lemma unset_variable_propagates_witness :
  exists w, run unset_prog empty_world = Some w /\
    EvalNode_calc (Some 3) w = (Throw "Variable not set", w) /\
    eval (heap w) (Some 3) = Throw "Variable not set".
Proof.
  eexists. split; [vm_compute; reflexivity|].
  eapply (unset_variable_propagates unset_prog _ 3 _ 0).
  - vm_compute. reflexivity.
  - vm_compute. reflexivity.
  - discriminate.
  - eapply under_operand; [vm_compute; reflexivity|apply list_elem_of_here|].
    eapply under_operand; [vm_compute; reflexivity|apply list_elem_of_here|].
    apply under_here.
  - eexists. vm_compute. reflexivity.
  - unfold unset_prog. rewrite !Exists_cons, Exists_nil. simpl.
    intros [[]|[[]|[[]|[[]|[[]|[[]|[]]]]]]].
Defined.

(** Lookups in a context that has nothing registered. *)
Lemma lookup_unknown_registers_witness :
  fst (getExpression "E" new_EvaluationContext) = None /\
  isKnownExpression "E" (snd (getExpression "E" new_EvaluationContext)) = true /\
  fst (getVariable "a" new_EvaluationContext) = None /\
  isKnownVariable "a" (snd (getVariable "a" new_EvaluationContext)) = true.
Proof.
  pose proof (lookup_unknown_registers new_EvaluationContext "E" "a") as H.
  destruct H as [He Hv]; [vm_compute; reflexivity|vm_compute; reflexivity|].
  destruct (getExpression "E" new_EvaluationContext) as [pe ce].
  destruct (getVariable "a" new_EvaluationContext) as [pv cv].
  destruct He as (? & ? & _), Hv as (? & ? & _). by repeat split.
Defined.

(** An unregistered name after both loops completed: "Not found", and
    the registered variable has been frozen on the way. *)
Example unknown_name_not_found :
  fst (EvaluationContext_calc demo_ctx "missing" demo_world) = Throw "Not found" /\
  flag (heap demo_world) 0 = Some true /\
  flag (heap (snd (EvaluationContext_calc demo_ctx "missing" demo_world))) 0
    = Some false /\
  cached (heap (snd (EvaluationContext_calc demo_ctx "missing" demo_world))) 6
    = Some 15%float.
Proof. repeat split; vm_compute; reflexivity. Qed.

(** A name that was never registered but was looked up once: the pass
    throws nothing, it dereferences the empty pointer the lookup left in
    the map, after freezing the registered variable. *)
Example looked_up_name_is_undefined :
  let ctx := snd (getExpression "missing" demo_ctx) in
  isKnownExpression "missing" demo_ctx = false /\
  isKnownExpression "missing" ctx = true /\
  fst (EvaluationContext_calc ctx "missing" demo_world) = Undef /\
  flag (heap (snd (EvaluationContext_calc ctx "missing" demo_world))) 0
    = Some false.
Proof. repeat split; vm_compute; reflexivity. Qed.

(** "E" is registered twice, first over the unset [a], then over the
    set [b]: lookup gives the second node, which evaluates to 1, and
    yet the pass throws because it still visits the first. *)
Example duplicate_still_evaluated :
  let w := snd ((let* a := new_VariableNode "a" in
                 let* b := new_VariableNode "b" in
                 let* _ := new_ExpressionNode "E" a in
                 let* _ := new_ExpressionNode "E" b in
                 VariableNode_set b 1%float) empty_world) in
  let ctx := addExpression "E" (Some 3)
               (addExpression "E" (Some 2) new_EvaluationContext) in
  fst (getExpression "E" ctx) = Some 3 /\
  d_expressions ctx = [Some 2; Some 3] /\
  fst (EvalNode_calc (Some 3) w) = Ok 1%float /\
  fst (EvaluationContext_calc ctx "E" w) = Throw "Variable not set".
Proof. repeat split; vm_compute; reflexivity. Qed.

(** * Further properties *)

(** ** Dirtiness and failure, by subgraph *)

(** X1.  On a well-formed store [needCalc()] of a node is true exactly
    when some variable in its subgraph has its flag set, and false
    exactly when none has. *)
Theorem needCalc_iff_dirty_below h l :
  wf_heap h -> l < length h ->
  (needCalc h (Some l) = Ok true <->
     exists x, under h l x /\ flag h x = Some true) /\
  (needCalc h (Some l) = Ok false <->
     forall x, under h l x -> flag h x <> Some true).
Proof.
  intros Hwf Hl. split; split.
  - by apply needCalc_true_inv.
  - intros (x & Hu & Hx). by apply (needCalc_dirty h l x).
  - intros Hd x Hu Hx. rewrite (needCalc_dirty h l x Hwf Hu Hx) in Hd. done.
  - by apply needCalc_clean.
Qed.

Lemma eval_throw_inv h l :
  wf_heap h -> eval h (Some l) = Throw "Variable not set" ->
  exists x c d name, under h l x /\
    h !! x = Some (mkNode c (VariableNode d name)) /\ is_nan c = true.
Proof.
  intros Hwf. induction l as [l IH] using lt_wf_ind. intros He.
  destruct (h !! l) as [[c d]|] eqn:Hn.
  2:{ unfold eval in He. cbn [eval_fuel deref] in He. by rewrite Hn in He. }
  assert (forall p, p ∈ operands (mkNode c d) ->
            eval h p = Throw "Variable not set" ->
            exists x c' d' name, under h l x /\
              h !! x = Some (mkNode c' (VariableNode d' name)) /\
              is_nan c' = true) as Hop.
  { intros p Hp Hep.
    destruct (wf_operand h l _ p Hwf Hn Hp) as (q & -> & Hq & _).
    destruct (IH q Hq Hep) as (x & c' & d' & nm & Hu & Hx & Hc).
    exists x, c', d', nm. split; [|done]. by eapply under_operand. }
  unfold operands in Hop. destruct d as [e nm| |dn nm|e f|e1 e2 f]; simpl in Hop.
  - rewrite (eval_ExpressionNode h Hwf l c e nm Hn) in He.
    apply (Hop e); [apply list_elem_of_here|done].
  - by rewrite (eval_ConstantNode h l c Hn) in He.
  - rewrite (eval_VariableNode h l c dn nm Hn) in He.
    destruct (is_nan c) eqn:Hc; [|done].
    exists l, c, dn, nm. split; [constructor|done].
  - rewrite (eval_UnaryOperatorNode h Hwf l c e f Hn) in He.
    destruct (eval h e) as [v|s| |] eqn:E; simpl in He; try done.
    injection He as ->. apply (Hop e); [apply list_elem_of_here|done].
  - rewrite (eval_BinaryOperatorNode h Hwf l c e1 e2 f Hn) in He.
    destruct (eval h e1) as [v1|s| |] eqn:E1; simpl in He; try done.
    + destruct (eval h e2) as [v2|s| |] eqn:E2; simpl in He; try done.
      injection He as ->.
      apply (Hop e2); [apply list_elem_of_further, list_elem_of_here|done].
    + injection He as ->. apply (Hop e1); [apply list_elem_of_here|done].
Qed.

(** X2.  On a well-formed store [eval()] of a node throws
    "Variable not set" exactly when some variable in its subgraph holds
    NaN, and returns a value exactly when none does; it does nothing
    else. *)
Theorem eval_iff_unset_below h l :
  wf_heap h -> l < length h ->
  (eval h (Some l) = Throw "Variable not set" <->
     exists x c d name, under h l x /\
       h !! x = Some (mkNode c (VariableNode d name)) /\ is_nan c = true) /\
  ((exists v, eval h (Some l) = Ok v) <->
     forall x c d name, under h l x ->
       h !! x = Some (mkNode c (VariableNode d name)) -> is_nan c = false).
Proof.
  intros Hwf Hl. split; split.
  - by apply eval_throw_inv.
  - intros (x & c & d & nm & Hu & Hx & Hc).
    by apply (eval_throws_unset h l x c d nm).
  - intros [v Hv] x c d nm Hu Hx. by apply (eval_ok_set h l x v c d nm).
  - intros Hall. destruct (eval_total h l Hwf Hl) as [|He]; [done|].
    apply (eval_throw_inv h l Hwf) in He as (x & c & d & nm & Hu & Hx & Hc).
    rewrite (Hall x c d nm Hu Hx) in Hc. done.
Qed.

(** ** What a client can reach *)

Lemma calc_total l w :
  wf_heap (heap w) -> l < length (heap w) ->
  (exists v, fst (EvalNode_calc (Some l) w) = Ok v) \/
  fst (EvalNode_calc (Some l) w) = Throw "Variable not set".
Proof.
  intros Hwf Hl. unfold EvalNode_calc, bind, query. simpl.
  destruct (lookup_lt_is_Some_2 _ l Hl) as [n Hn]. rewrite Hn. simpl.
  destruct (needCalc_total _ l Hwf Hl) as [b Hb].
  assert ((exists v, fst (match eval (heap w) (Some l) with
            | Ok a => (Ok a, recached l n a w)
            | Throw s => (Throw s, w)
            | Undef => (Undef, w)
            | OutOfFuel => (OutOfFuel, w)
            end) = Ok v) \/
          fst (match eval (heap w) (Some l) with
            | Ok a => (Ok a, recached l n a w)
            | Throw s => (Throw s, w)
            | Undef => (Undef, w)
            | OutOfFuel => (OutOfFuel, w)
            end) = Throw "Variable not set") as He
    by (destruct (eval_total _ l Hwf Hl) as [[v ->]| ->]; simpl; eauto).
  destruct (is_nan (d_cachedValue n)); simpl; rewrite ?Hb; simpl; [done|].
  destruct b; simpl; eauto.
Qed.

(** X3.  Whatever a client program does, the graph it has built is
    acyclic and closed: every node points to nodes constructed before
    it, so on every node [needCalc()] returns, and [eval()] and [calc()]
    either return a value or throw "Variable not set"; they never
    dereference an empty pointer and never recurse without end. *)
Theorem reachable_evaluation_total prog w l :
  run prog empty_world = Some w -> l < length (heap w) ->
  wf_heap (heap w) /\
  (exists b, needCalc (heap w) (Some l) = Ok b) /\
  ((exists v, eval (heap w) (Some l) = Ok v) \/
   eval (heap w) (Some l) = Throw "Variable not set") /\
  ((exists v, fst (EvalNode_calc (Some l) w) = Ok v) \/
   fst (EvalNode_calc (Some l) w) = Throw "Variable not set").
Proof.
  intros Hrun Hl. destruct (vouched_run prog w Hrun) as [Hwf _].
  split; [done|]. split; [by apply needCalc_total|].
  split; [by apply eval_total|by apply calc_total].
Qed.

(** ** [calc()] is a query *)

Lemma eval_ok_needCalc_ok k h p v :
  eval_fuel k h p = Ok v -> exists b, needCalc_fuel k h p = Ok b.
Proof.
  revert p v. induction k as [|k IH]; intros p v; [done|]. simpl.
  destruct p as [l|]; simpl; [|done].
  destruct (h !! l) as [n|]; simpl; [|done].
  destruct (derived n); eauto.
  - destruct (eval_fuel k h d_node) eqn:E; simpl; try done.
    intros _. eauto.
  - destruct (eval_fuel k h d_leftNode) eqn:E1; simpl; try done.
    destruct (eval_fuel k h d_rightNode) eqn:E2; simpl; try done.
    intros _. destruct (IH _ _ E1) as [b1 ->], (IH _ _ E2) as [b2 ->]. simpl.
    destruct b1; eauto.
Qed.

Lemma calc_fst_congr l w w' :
  heap w' !! l = heap w !! l ->
  needCalc (heap w') (Some l) = needCalc (heap w) (Some l) ->
  eval (heap w') (Some l) = eval (heap w) (Some l) ->
  fst (EvalNode_calc (Some l) w') = fst (EvalNode_calc (Some l) w).
Proof.
  intros Hn Hd He. unfold EvalNode_calc, bind, query. cbn [deref]. rewrite Hn.
  destruct (heap w !! l) as [n|]; [|done]. cbv beta iota.
  destruct (is_nan (d_cachedValue n)); unfold ret, store, print;
    cbv beta iota; rewrite ?Hd, ?He.
  - by destruct (eval (heap w) (Some l)).
  - destruct (needCalc (heap w) (Some l)) as [[]| | |]; try done.
    cbv beta iota. rewrite He. by destruct (eval (heap w) (Some l)).
Qed.


(** ** Locality *)

Lemma eval_agree h h' l :
  wf_heap h -> wf_heap h' ->
  (forall y, under h l y -> h' !! y = h !! y) ->
  eval h' (Some l) = eval h (Some l).
Proof.
  intros Hwf Hwf'. induction l as [l IH] using lt_wf_ind. intros Hag.
  pose proof (Hag l (under_here _ _)) as Hl.
  destruct (h !! l) as [[c d]|] eqn:Hn.
  2:{ unfold eval. cbn [eval_fuel deref]. by rewrite Hl, Hn. }
  assert (forall p, p ∈ operands (mkNode c d) -> eval h' p = eval h p) as Hop.
  { intros p Hp. destruct (wf_operand h l _ p Hwf Hn Hp) as (q & -> & Hq & _).
    apply IH; [done|]. intros y Hy. apply Hag. by eapply under_operand. }
  unfold operands in Hop. destruct d as [e nm| |dn nm|e f|e1 e2 f]; simpl in Hop.
  - rewrite (eval_ExpressionNode h Hwf l c e nm Hn).
    rewrite (eval_ExpressionNode h' Hwf' l c e nm Hl).
    apply Hop, list_elem_of_here.
  - by rewrite (eval_ConstantNode h l c Hn), (eval_ConstantNode h' l c Hl).
  - by rewrite (eval_VariableNode h l c dn nm Hn),
      (eval_VariableNode h' l c dn nm Hl).
  - rewrite (eval_UnaryOperatorNode h Hwf l c e f Hn).
    rewrite (eval_UnaryOperatorNode h' Hwf' l c e f Hl).
    by rewrite (Hop e) by apply list_elem_of_here.
  - rewrite (eval_BinaryOperatorNode h Hwf l c e1 e2 f Hn).
    rewrite (eval_BinaryOperatorNode h' Hwf' l c e1 e2 f Hl).
    rewrite (Hop e1) by apply list_elem_of_here.
    by rewrite (Hop e2) by apply list_elem_of_further, list_elem_of_here.
Qed.

Lemma needCalc_agree h h' l :
  wf_heap h -> wf_heap h' ->
  (forall y, under h l y -> h' !! y = h !! y) ->
  needCalc h' (Some l) = needCalc h (Some l).
Proof.
  intros Hwf Hwf'. induction l as [l IH] using lt_wf_ind. intros Hag.
  pose proof (Hag l (under_here _ _)) as Hl.
  destruct (h !! l) as [[c d]|] eqn:Hn.
  2:{ unfold needCalc. cbn [needCalc_fuel deref]. by rewrite Hl, Hn. }
  assert (forall p, p ∈ operands (mkNode c d) -> needCalc h' p = needCalc h p)
    as Hop.
  { intros p Hp. destruct (wf_operand h l _ p Hwf Hn Hp) as (q & -> & Hq & _).
    apply IH; [done|]. intros y Hy. apply Hag. by eapply under_operand. }
  unfold operands in Hop. destruct d as [e nm| |dn nm|e f|e1 e2 f]; simpl in Hop.
  - rewrite (needCalc_ExpressionNode h Hwf l c e nm Hn).
    rewrite (needCalc_ExpressionNode h' Hwf' l c e nm Hl).
    apply Hop, list_elem_of_here.
  - by rewrite (needCalc_ConstantNode h l c Hn), (needCalc_ConstantNode h' l c Hl).
  - by rewrite (needCalc_VariableNode h l c dn nm Hn),
      (needCalc_VariableNode h' l c dn nm Hl).
  - rewrite (needCalc_UnaryOperatorNode h Hwf l c e f Hn).
    rewrite (needCalc_UnaryOperatorNode h' Hwf' l c e f Hl).
    apply Hop, list_elem_of_here.
  - rewrite (needCalc_BinaryOperatorNode h Hwf l c e1 e2 f Hn).
    rewrite (needCalc_BinaryOperatorNode h' Hwf' l c e1 e2 f Hl).
    rewrite (Hop e1) by apply list_elem_of_here.
    by rewrite (Hop e2) by apply list_elem_of_further, list_elem_of_here.
Qed.

(** X5.  [set()] on a variable reaches exactly the nodes above it.  A
    node that does not have the variable in its subgraph is untouched:
    [eval()], [needCalc()] and [calc()] answer as before.  Every node
    that has it in its subgraph is dirty at once, without any call on
    that node, and its next [calc()] recomputes: it gives what [eval()]
    gives in the new store. *)
Theorem set_reaches_nodes_above x v w w' :
  wf_heap (heap w) -> VariableNode_set (Some x) v w = (Ok tt, w') ->
  (forall l, ~ under (heap w) l x ->
     heap w' !! l = heap w !! l /\
     eval (heap w') (Some l) = eval (heap w) (Some l) /\
     needCalc (heap w') (Some l) = needCalc (heap w) (Some l) /\
     fst (EvalNode_calc (Some l) w') = fst (EvalNode_calc (Some l) w)) /\
  (forall l, l < length (heap w) -> under (heap w) l x ->
     needCalc (heap w') (Some l) = Ok true /\
     fst (EvalNode_calc (Some l) w') = eval (heap w') (Some l)).
Proof.
  intros Hwf Hset. apply set_spec in Hset as (c & d & nm & Hn & ->). simpl.
  set (h' := <[x:=mkNode v (VariableNode true nm)]> (heap w)).
  assert (wf_heap h') as Hwf' by by apply (wf_heap_insert _ _ _ _ Hwf Hn).
  split.
  - intros l Hnu.
    assert (forall y, under (heap w) l y -> h' !! y = heap w !! y) as Hag.
    { intros y Hy. apply list_lookup_insert_ne. by intros ->. }
    pose proof (eval_agree _ h' l Hwf Hwf' Hag) as He.
    pose proof (needCalc_agree _ h' l Hwf Hwf' Hag) as Hd.
    split; [apply Hag; constructor|]. split; [done|]. split; [done|].
    apply calc_fst_congr; [apply Hag; constructor|done|done].
  - intros l Hl Hu.
    assert (Forall2 same_operands (heap w) h') as HF.
    { unfold h'. rewrite <- (list_insert_id (heap w) x _ Hn) at 1.
      apply Forall2_insert; [|done].
      by apply Forall_Forall2_diag, Forall_forall. }
    assert (needCalc h' (Some l) = Ok true) as Hd.
    { apply (needCalc_dirty h' l x Hwf').
      - by apply (under_same_operands _ _ _ _ HF).
      - unfold flag, h'.
        by rewrite list_lookup_insert_eq by by eapply lookup_lt_Some. }
    split; [done|].
    assert (l < length h') as Hl' by (unfold h'; by rewrite length_insert).
    destruct (lookup_lt_is_Some_2 _ l Hl') as [n' Hn'].
    apply (calc_dirty_eq l n'); [done|by right].
Qed.

(** ** A second pass changes nothing *)

Lemma calc_heap_only p u u' :
  heap u = heap u' ->
  fst (EvalNode_calc p u) = fst (EvalNode_calc p u') /\
  heap (snd (EvalNode_calc p u)) = heap (snd (EvalNode_calc p u')).
Proof.
  intros Hh. unfold EvalNode_calc, bind, query. rewrite Hh.
  destruct (deref (heap u') p) as [[l n]| | |]; try done. cbv beta iota.
  destruct (is_nan (d_cachedValue n)); unfold ret, store, print;
    cbv beta iota; rewrite ?Hh.
  - destruct (eval (heap u') p); simpl; by rewrite ?Hh.
  - destruct (needCalc (heap u') p) as [[]| | |]; cbv beta iota;
      rewrite ?Hh; try done.
    destruct (eval (heap u') p); simpl; by rewrite ?Hh.
Qed.

(** A call of [calc()] that returns and leaves the store as it is. *)
Lemma quiet_of_fresh l n u :
  heap u !! l = Some n -> eval (heap u) (Some l) = Ok (d_cachedValue n) ->
  exists u', EvalNode_calc (Some l) u = (Ok (d_cachedValue n), u') /\
             heap u' = heap u.
Proof.
  intros Hn He. destruct (eval_ok_needCalc_ok _ _ _ _ He) as [b Hb].
  fold (needCalc (heap u) (Some l)) in Hb.
  assert (heap (recached l n (d_cachedValue n) u) = heap u) as Hsame.
  { simpl. apply list_insert_id. rewrite Hn. by destruct n. }
  destruct (is_nan (d_cachedValue n)) eqn:Hc.
  - rewrite (calc_miss_eq l n _ u Hn (or_introl Hc) He). eauto.
  - destruct b.
    + rewrite (calc_miss_eq l n _ u Hn (or_intror Hb) He). eauto.
    + rewrite (calc_hit_eq l n u Hn Hc Hb). eauto.
Qed.

Lemma calc_twice l u v u' :
  EvalNode_calc (Some l) u = (Ok v, u') ->
  exists u'', EvalNode_calc (Some l) u' = (Ok v, u'') /\ heap u'' = heap u'.
Proof.
  intros Hc. pose proof (calc_kept_flags (Some l) u) as K.
  pose proof (calc_outcome_holds (Some l) u) as Ho. rewrite Hc in Ho, K.
  simpl in K. remember (Ok v, u') as r eqn:Hr.
  destruct Ho as [l' n Hl Hn Hnan Hclean|l' n v' Hl Hn _ Hv| |r' Hr'];
    simplify_eq.
  - rewrite (calc_hit_eq l' n (using_cache u)); eauto.
  - assert (heap (recached l' n v u) !! l' = Some (cacheValue n v)) as Hn'
      by (simpl; apply list_lookup_insert_eq; by eapply lookup_lt_Some).
    apply (quiet_of_fresh l' (cacheValue n v)); [done|].
    by rewrite (kept_eval u (recached l' n v u)) by by apply kept_flags_kept.
  - by destruct Hr'.
Qed.

Lemma cache_keeps_clean y u x :
  flag (heap u) x <> Some true ->
  flag (heap (snd (VariableNode_cache y u))) x <> Some true.
Proof.
  intros Hx.
  destruct (cache_cases y u) as [(x' & c & d & nm & -> & Hn & ->)| ->]; [|done].
  simpl. unfold flag in *. destruct (decide (x' = x)) as [->|Hne].
  - by rewrite list_lookup_insert_eq by by eapply lookup_lt_Some.
  - by rewrite list_lookup_insert_ne.
Qed.

Lemma for_each_cache_keeps_clean ys u x :
  flag (heap u) x <> Some true ->
  flag (heap (snd (for_each VariableNode_cache ys u))) x <> Some true.
Proof.
  apply (for_each_inv (fun u => flag (heap u) x <> Some true)).
  intros y u0. apply cache_keeps_clean.
Qed.

(** A settled node in a world whose flags have only been cleared
    since: [calc()] on it returns and writes nothing new. *)
Lemma settled_quiet w0 l u :
  wf_heap (heap w0) -> kept w0 u ->
  (forall x, flag (heap w0) x <> Some true -> flag (heap u) x <> Some true) ->
  settled w0 l u ->
  exists c u', EvalNode_calc (Some l) u = (Ok c, u') /\ heap u' = heap u.
Proof.
  intros Hwf K Hflags (c & Hc & Hs). unfold cached in Hc.
  destruct (heap u !! l) as [n|] eqn:Hn; [|done]. injection Hc as <-.
  destruct Hs as [He|(_ & Hnan & Hclean)].
  - rewrite <- (kept_eval w0 u (Some l) K) in He.
    destruct (quiet_of_fresh l n u Hn He) as (u' & ? & ?). eauto.
  - exists (d_cachedValue n), (using_cache u). split; [|done].
    apply calc_hit_eq; [done|done|].
    apply needCalc_clean.
    + by apply (kept_wf w0 u).
    + by eapply lookup_lt_Some.
    + intros x Hu. apply Hflags.
      apply (under_sim_inv _ _ _ _ K) in Hu.
      intros Hx. rewrite (needCalc_dirty _ l x Hwf Hu Hx) in Hclean. done.
Qed.

Lemma for_each_calc_quiet ps h :
  (forall p u, p ∈ ps -> heap u = h ->
     exists c u', EvalNode_calc p u = (Ok c, u') /\ heap u' = h) ->
  forall u, heap u = h ->
    exists u', for_each (fun p => let* _ := EvalNode_calc p in ret tt) ps u
               = (Ok tt, u') /\ heap u' = h.
Proof.
  induction ps as [|p ps IH]; intros Hq u Hu; simpl; [by exists u|].
  destruct (Hq p u (list_elem_of_here _ _) Hu) as (c & u1 & Hc & Hu1).
  destruct (IH (fun q u0 Hq0 => Hq q u0 (list_elem_of_further _ _ _ Hq0)) u1 Hu1)
    as (u' & Hrun & Hu').
  exists u'. split; [|done]. unfold bind at 1 2. by rewrite Hc.
Qed.

Lemma for_each_cache_quiet ys h :
  (forall y, y ∈ ys -> exists x, y = Some x /\ flag h x = Some false) ->
  forall u, heap u = h ->
    exists u', for_each VariableNode_cache ys u = (Ok tt, u') /\ heap u' = h.
Proof.
  induction ys as [|y ys IH]; intros Hq u Hu; simpl; [by exists u|].
  destruct (Hq y (list_elem_of_here _ _)) as (x & -> & Hx).
  unfold flag in Hx. rewrite <- Hu in Hx.
  destruct (heap u !! x) as [[c d]|] eqn:Hn; [|done].
  destruct d as [| |dn nm| |]; try done. injection Hx as ->.
  set (u1 := mkWorld (<[x:=mkNode c (VariableNode false nm)]> (heap u)) (cout u)).
  assert (VariableNode_cache (Some x) u = (Ok tt, u1)) as Hc
    by (unfold VariableNode_cache, bind, query, store; simpl; by rewrite Hn).
  assert (heap u1 = h) as Hu1 by (simpl; by rewrite list_insert_id).
  destruct (IH (fun z Hz => Hq z (list_elem_of_further _ _ _ Hz)) u1 Hu1)
    as (u' & Hrun & Hu').
  exists u'. split; [|done]. unfold bind. by rewrite Hc.
Qed.

Lemma calc_keeps_settled w0 l q u :
  kept w0 u -> settled w0 l u -> settled w0 l (snd (EvalNode_calc q u)).
Proof.
  intros K Hs.
  destruct (calc_outcome_holds q u) as [|l' n v -> Hn _ Hv| |]; try done.
  simpl. destruct (decide (l' = l)) as [->|Hne].
  - exists v. unfold cached. simpl.
    rewrite list_lookup_insert_eq by by eapply lookup_lt_Some.
    split; [done|]. left. by rewrite <- (kept_eval w0 u).
  - destruct Hs as (c & Hc & Hs). exists c. split; [|done].
    unfold cached in *. simpl. by rewrite list_lookup_insert_ne.
Qed.

Lemma for_each_calc_live ps w w' p :
  for_each (fun p => let* _ := EvalNode_calc p in ret tt) ps w = (Ok tt, w') ->
  p ∈ ps -> exists l, p = Some l.
Proof.
  revert w. induction ps as [|q ps IH]; intros w Hrun Hp.
  - by apply not_elem_of_nil in Hp.
  - apply for_each_cons_ok in Hrun as (w1 & Hq & Hrun).
    apply elem_of_cons in Hp as [->|Hp]; [|by eapply IH].
    destruct q as [l|]; [eauto|]. done.
Qed.

Lemma for_each_cache_live ys w w' y :
  for_each VariableNode_cache ys w = (Ok tt, w') ->
  y ∈ ys -> exists x, y = Some x.
Proof.
  revert w. induction ys as [|z ys IH]; intros w Hrun Hy.
  - by apply not_elem_of_nil in Hy.
  - apply for_each_cons_ok in Hrun as (w1 & Hz & Hrun).
    apply elem_of_cons in Hy as [->|Hy]; [|by eapply IH].
    destruct z as [x|]; [eauto|]. done.
Qed.

(** X6.  A pass that returned can be repeated: run again at once, with
    no [set()] in between, [EvaluationContext::calc] returns the same
    value and leaves every node exactly as the first pass left it. *)
Theorem recalculate_idempotent ctx name w v w1 :
  wf_heap (heap w) ->
  EvaluationContext_calc ctx name w = (Ok v, w1) ->
  exists w2, EvaluationContext_calc ctx name w1 = (Ok v, w2) /\
             heap w2 = heap w1.
Proof.
  intros Hwf Hcalc. unfold EvaluationContext_calc, bind in Hcalc.
  destruct (calc_expressions ctx w) as [[[]|s| |] wa] eqn:H1; try done.
  destruct (cache_variables ctx wa) as [[[]|s| |] wb] eqn:H2; try done.
  destruct (d_expressionMap ctx !! name) as [[lt|]|] eqn:Hname; try done.
  pose proof (calc_expressions_run _ _ _ H1) as K1.
  pose proof (cache_variables_run _ _ _ H2) as K2.
  pose proof (calc_kept_flags (Some lt) wb) as K3. rewrite Hcalc in K3.
  simpl in K3.
  assert (kept w wb) as Kb
    by (etrans; [by apply kept_flags_kept|by apply kept_values_kept]).
  assert (kept w w1) as K by (etrans; [exact Kb|by apply kept_flags_kept]).
  assert (forall x, flag (heap w) x <> Some true -> flag (heap w1) x <> Some true)
    as Hflags.
  { intros x Hx. destruct K1 as [_ F1], K3 as [_ F3].
    rewrite (flag_need_sim _ _ x F3).
    replace wb with (snd (cache_variables ctx wa)) by by rewrite H2.
    apply for_each_cache_keeps_clean. by rewrite (flag_need_sim _ _ x F1). }
  assert (forall l, Some l ∈ d_expressions ctx -> settled w l w1) as Hsettled.
  { intros l Hl.
    replace w1 with (snd (EvalNode_calc (Some lt) wb)) by by rewrite Hcalc.
    apply calc_keeps_settled; [done|].
    apply (settled_kept_values w l wa wb K2).
    by apply (calc_expressions_settled ctx). }
  destruct (for_each_calc_quiet (d_expressions ctx) (heap w1)) with (u := w1)
    as (ua & Ha & Hua); [|done|].
  { intros p u Hp Hu.
    destruct (for_each_calc_live _ _ _ p H1 Hp) as [l ->].
    rewrite <- Hu. apply (settled_quiet w l u Hwf).
    - unfold kept. by rewrite Hu.
    - intros x. rewrite Hu. apply Hflags.
    - specialize (Hsettled l Hp). unfold settled, cached in *. by rewrite Hu. }
  destruct (for_each_cache_quiet (variables ctx) (heap w1)) with (u := ua)
    as (ub & Hb & Hub); [|done|].
  { intros y Hy. destruct (for_each_cache_live _ _ _ y H2 Hy) as [x ->].
    exists x. split; [done|]. destruct K3 as [_ F3].
    rewrite (flag_need_sim _ _ x F3).
    by apply (for_each_cache_frozen _ wa wb x H2). }
  destruct (calc_twice lt wb v w1 Hcalc) as (u'' & Hc'' & Hu'').
  destruct (calc_heap_only (Some lt) ub w1 Hub) as [Hfst Hsnd].
  rewrite Hc'' in Hfst, Hsnd. simpl in Hfst, Hsnd.
  exists (snd (EvalNode_calc (Some lt) ub)). split; [|congruence].
  unfold EvaluationContext_calc, bind.
  unfold calc_expressions, cache_variables. rewrite Ha, Hb, Hname.
  destruct (EvalNode_calc (Some lt) ub) as [r u3]. simpl in *. by subst.
Qed.

(** ** The context over sequences of calls *)

Lemma call_context_keeps c ctx :
  named_in_list ctx ->
  named_in_list (call_context c ctx) /\
  d_expressions ctx `prefix_of` d_expressions (call_context c ctx) /\
  (forall name, isKnownExpression name ctx = true ->
     isKnownExpression name (call_context c ctx) = true) /\
  (forall name, isKnownVariable name ctx = true ->
     isKnownVariable name (call_context c ctx) = true).
Proof.
  intros Hin. unfold isKnownExpression, isKnownVariable.
  destruct c as [name|name|name e|name v]; simpl.
  - unfold getExpression, map_subscript.
    destruct (d_expressionMap ctx !! name) as [p|] eqn:Hp; simpl;
      (split; [|split; [done|split; [|done]]]).
    + done.
    + done.
    + intros name' l. simpl. destruct (decide (name = name')) as [->|Hne].
      * by rewrite lookup_insert_eq.
      * rewrite lookup_insert_ne by done. apply Hin.
    + intros name' Hk. apply bool_decide_eq_true in Hk.
      apply bool_decide_eq_true. destruct (decide (name = name')) as [->|Hne].
      * by rewrite lookup_insert_eq.
      * by rewrite lookup_insert_ne.
  - unfold getVariable, map_subscript.
    destruct (d_variableMap ctx !! name) as [p|] eqn:Hp; simpl;
      (split; [done|split; [done|split; [done|]]]); [done|].
    intros name' Hk. apply bool_decide_eq_true in Hk.
    apply bool_decide_eq_true. destruct (decide (name = name')) as [->|Hne].
    + by rewrite lookup_insert_eq.
    + by rewrite lookup_insert_ne.
  - split; [|split; [by apply prefix_app_r|split; [|done]]].
    + intros name' l. simpl. rewrite elem_of_app, list_elem_of_singleton.
      destruct (decide (name = name')) as [->|Hne].
      * rewrite lookup_insert_eq. intros [= ->]. by right.
      * rewrite lookup_insert_ne by done. intros H. left. by eapply Hin.
    + intros name' Hk. apply bool_decide_eq_true in Hk.
      apply bool_decide_eq_true. destruct (decide (name = name')) as [->|Hne].
      * by rewrite lookup_insert_eq.
      * by rewrite lookup_insert_ne.
  - split; [done|split; [done|split; [done|]]].
    intros name' Hk. apply bool_decide_eq_true in Hk.
    apply bool_decide_eq_true. destruct (decide (name = name')) as [->|Hne].
    + by rewrite lookup_insert_eq.
    + by rewrite lookup_insert_ne.
Qed.

(** X7.  Whatever sequence of lookups and registrations a context
    goes through, it never forgets: the evaluation list only grows at
    its end, a known name stays known, and every non-empty pointer the
    expression map holds is in the evaluation list, so that what can be
    named as a target is evaluated by every pass. *)
Theorem context_never_forgets cs ctx :
  named_in_list ctx ->
  named_in_list (call_contexts cs ctx) /\
  d_expressions ctx `prefix_of` d_expressions (call_contexts cs ctx) /\
  (forall name, isKnownExpression name ctx = true ->
     isKnownExpression name (call_contexts cs ctx) = true) /\
  (forall name, isKnownVariable name ctx = true ->
     isKnownVariable name (call_contexts cs ctx) = true).
Proof.
  revert ctx. induction cs as [|c cs IH]; intros ctx Hin; simpl; [done|].
  destruct (call_context_keeps c ctx Hin) as (H1 & H2 & H3 & H4).
  destruct (IH _ H1) as (I1 & I2 & I3 & I4).
  split; [done|]. split; [by etrans|]. split; auto.
Qed.

Lemma named_in_list_new : named_in_list new_EvaluationContext.
Proof. intros name l. simpl. by rewrite lookup_empty. Qed.

(** ** Empty pointers in the maps *)

Lemma cache_ok_or_undef y w :
  fst (VariableNode_cache y w) = Ok tt \/ fst (VariableNode_cache y w) = Undef.
Proof.
  unfold VariableNode_cache, bind, query, store, undefined. simpl.
  destruct y as [x|]; simpl; [|by right].
  destruct (heap w !! x) as [[c d]|]; simpl; [|by right].
  destruct d; simpl; auto.
Qed.

Lemma for_each_cache_null ys w :
  None ∈ ys -> fst (for_each VariableNode_cache ys w) = Undef.
Proof.
  revert w. induction ys as [|y ys IH]; intros w Hin.
  - by apply not_elem_of_nil in Hin.
  - simpl. unfold bind.
    apply elem_of_cons in Hin as [<-|Hin]; [done|].
    destruct (cache_ok_or_undef y w) as [Hy|Hy];
      destruct (VariableNode_cache y w) as [r w1]; simpl in Hy; subst r;
      [|done].
    by apply IH.
Qed.

(** X8.  A lookup of an unknown name leaves an empty pointer behind,
    and the pass dereferences it.  After [getVariable] on an unknown
    name, every pass whose first loop completes runs into the empty
    pointer in the second loop, whatever the target.  After
    [getExpression] on an unknown name, a pass for that name gets past
    the "Not found" check and calls [calc()] through the empty
    pointer. *)
Theorem lookup_poisons_context ctx ename vname :
  isKnownExpression ename ctx = false ->
  isKnownVariable vname ctx = false ->
  (forall target w w1,
     calc_expressions ctx w = (Ok tt, w1) ->
     fst (EvaluationContext_calc (snd (getVariable vname ctx)) target w)
       = Undef) /\
  (forall w w1 w2,
     calc_expressions ctx w = (Ok tt, w1) ->
     cache_variables ctx w1 = (Ok tt, w2) ->
     EvaluationContext_calc (snd (getExpression ename ctx)) ename w
       = (Undef, w2)).
Proof.
  unfold isKnownExpression, isKnownVariable, getExpression, getVariable,
    map_subscript.
  intros He Hv. apply bool_decide_eq_false in He, Hv.
  apply eq_None_not_Some in He, Hv. rewrite He, Hv. simpl. split.
  - intros target w w1 H1. unfold EvaluationContext_calc, bind.
    unfold calc_expressions in *. simpl. rewrite H1.
    assert (fst (cache_variables
      (mkContext (d_expressionMap ctx) (<[vname:=None]> (d_variableMap ctx))
         (d_expressions ctx)) w1) = Undef) as Hc.
    { apply for_each_cache_null, variables_spec. exists vname. simpl.
      by rewrite lookup_insert_eq. }
    by destruct (cache_variables _ w1) as [r w2]; simpl in Hc; subst r.
  - intros w w1 w2 H1 H2. unfold EvaluationContext_calc, bind.
    unfold calc_expressions, cache_variables, variables in *. simpl.
    by rewrite H1, H2, lookup_insert_eq.
Qed.

(** ** A disciplined client always gets the current value *)

Lemma leaf_fresh h l n :
  h !! l = Some n -> operands n = [] -> is_nan (d_cachedValue n) = false ->
  eval h (Some l) = Ok (d_cachedValue n).
Proof.
  intros Hn Hop Hc. destruct n as [c d]. unfold operands in Hop.
  destruct d; try done; simpl in *.
  - by apply eval_ConstantNode.
  - rewrite (eval_VariableNode _ _ _ _ _ Hn). by rewrite Hc.
Qed.

Lemma all_fresh_clean w : all_fresh w -> clean_fresh w.
Proof. intros H l n Hn Hc _. by apply H. Qed.

Lemma for_each_inv_in {A} (I : world -> Prop) (f : A -> M unit) xs :
  (forall x w, x ∈ xs -> I w -> I (snd (f x w))) ->
  forall w, I w -> I (snd (for_each f xs w)).
Proof.
  induction xs as [|x xs IH]; intros Hf w Hw; simpl; [done|].
  apply bind_inv; [| |done].
  - apply Hf, list_elem_of_here.
  - intros _ w1. apply IH. intros y w2 Hy. by apply Hf, list_elem_of_further.
Qed.

Lemma coherent_alloc ctx n w :
  fresh n -> (forall p, p ∈ operands n -> live (heap w) p = true) ->
  coherent ctx w -> coherent ctx (snd (alloc n w)).
Proof.
  intros Hn Hlive (Hwf & Hcf & Hcr). simpl.
  assert (wf_heap (heap w ++ [n])) as Hwf' by by apply wf_heap_app.
  split; [done|]. split.
  - intros l m Hm Hc Hd. simpl in *.
    destruct (decide (l < length (heap w))) as [Hl|Hl].
    + assert (forall y, under (heap w) l y ->
                (heap w ++ [n]) !! y = heap w !! y) as Hag.
      { intros y Hy. apply lookup_app_l. apply (under_le _ _ _ Hwf) in Hy. lia. }
      rewrite lookup_app_l in Hm by done.
      rewrite (eval_agree _ _ l Hwf Hwf' Hag).
      rewrite (needCalc_agree _ _ l Hwf Hwf' Hag) in Hd. by apply Hcf.
    + rewrite lookup_app_r in Hm by lia.
      destruct (l - length (heap w)) as [|k] eqn:Hk; [|by destruct k].
      injection Hm as <-.
      assert (l = length (heap w)) as -> by lia.
      assert ((heap w ++ [n]) !! length (heap w) = Some n) as Hnew
        by (by rewrite lookup_app_r, Nat.sub_diag).
      destruct n as [c d]. unfold fresh in Hn. simpl in *.
      destruct d; try congruence.
      * by apply eval_ConstantNode.
      * destruct Hn. congruence.
  - intros l m Hm Hop Hc. simpl in *.
    destruct (decide (l < length (heap w))) as [Hl|Hl].
    + rewrite lookup_app_l in Hm by done. by eapply Hcr.
    + rewrite lookup_app_r in Hm by lia.
      destruct (l - length (heap w)) as [|k] eqn:Hk; [|by destruct k].
      injection Hm as <-. destruct n as [c d]. unfold fresh, operands in *.
      simpl in *. destruct d; try done; congruence.
Qed.

Lemma coherent_set ctx y v w :
  coherent ctx w -> coherent ctx (snd (VariableNode_set y v w)).
Proof.
  intros (Hwf & Hcf & Hcr).
  destruct (set_cases y v w) as [(x & c & d & nm & -> & Hn & ->)| ->]; [|done].
  simpl. set (h' := <[x:=mkNode v (VariableNode true nm)]> (heap w)).
  assert (wf_heap h') as Hwf' by by apply (wf_heap_insert _ _ _ _ Hwf Hn).
  assert (Forall2 same_operands (heap w) h') as HF.
  { unfold h'. rewrite <- (list_insert_id (heap w) x _ Hn) at 1.
    apply Forall2_insert; [|done]. by apply Forall_Forall2_diag, Forall_forall. }
  assert (flag h' x = Some true) as Hx
    by (unfold flag, h';
        by rewrite list_lookup_insert_eq by by eapply lookup_lt_Some).
  split; [done|]. split.
  - intros l m Hm Hc Hd. simpl in *. fold h' in Hm, Hd |- *.
    assert (~ under (heap w) l x) as Hnu.
    { intros Hu. apply (under_same_operands _ _ _ _ HF) in Hu.
      by rewrite (needCalc_dirty h' l x Hwf' Hu Hx) in Hd. }
    assert (forall z, under (heap w) l z -> h' !! z = heap w !! z) as Hag.
    { intros z Hz. apply list_lookup_insert_ne. by intros ->. }
    rewrite (Hag l (under_here _ _)) in Hm.
    rewrite (eval_agree _ _ l Hwf Hwf' Hag).
    rewrite (needCalc_agree _ _ l Hwf Hwf' Hag) in Hd. by apply Hcf.
  - intros l m Hm Hop Hc. simpl in *. fold h' in Hm.
    destruct (decide (l = x)) as [->|Hne].
    + unfold h' in Hm.
      rewrite list_lookup_insert_eq in Hm by by eapply lookup_lt_Some.
      by injection Hm as <-.
    + unfold h' in Hm. rewrite list_lookup_insert_ne in Hm by done.
      by eapply Hcr.
Qed.

Lemma all_fresh_calc p w : all_fresh w -> all_fresh (snd (EvalNode_calc p w)).
Proof.
  intros Haf. pose proof (calc_kept_flags p w) as K.
  destruct (calc_outcome_holds p w) as [|l n v -> Hn _ Hv| |]; try done.
  intros l' m Hm Hc. simpl in Hm.
  rewrite (kept_eval w _ (Some l')) by by apply kept_flags_kept.
  destruct (decide (l' = l)) as [->|Hne].
  - rewrite list_lookup_insert_eq in Hm by by eapply lookup_lt_Some.
    by injection Hm as <-.
  - rewrite list_lookup_insert_ne in Hm by done. by apply Haf.
Qed.

Lemma coherent_calc ctx p w :
  p ∈ d_expressions ctx -> coherent ctx w ->
  coherent ctx (snd (EvalNode_calc p w)).
Proof.
  intros Hp (Hwf & Hcf & Hcr). pose proof (calc_kept_flags p w) as K.
  split; [apply (kept_wf w); [by apply kept_flags_kept|done]|].
  destruct (calc_outcome_holds p w) as [|l n v -> Hn _ Hv| |];
    [by split|cbn [snd] in *|by split|by split].
  split.
  - intros l' m Hm Hc Hd.
    rewrite (kept_eval w _ (Some l')) by by apply kept_flags_kept.
    rewrite (kept_flags_needCalc w _ (Some l') K) in Hd. simpl in Hm.
    destruct (decide (l' = l)) as [->|Hne].
    + rewrite list_lookup_insert_eq in Hm by by eapply lookup_lt_Some.
      by injection Hm as <-.
    + rewrite list_lookup_insert_ne in Hm by done. by apply Hcf.
  - intros l' m Hm Hop Hc. simpl in Hm.
    destruct (decide (l' = l)) as [->|Hne]; [done|].
    rewrite list_lookup_insert_ne in Hm by done. by eapply Hcr.
Qed.

Lemma kept_values_fresh ctx u u' :
  kept_values u u' ->
  wf_heap (heap u) /\ all_fresh u /\ cached_registered ctx u ->
  wf_heap (heap u') /\ all_fresh u' /\ cached_registered ctx u'.
Proof.
  intros K (Hwf & Haf & Hcr).
  assert (forall l m', heap u' !! l = Some m' ->
            exists m, heap u !! l = Some m /\
              d_cachedValue m = d_cachedValue m' /\ operands m = operands m')
    as Hback.
  { intros l m' Hm'. destruct K as [KF KC].
    destruct (Forall2_lookup_r _ _ _ _ _ KF Hm') as (m & Hm & Hs).
    exists m. split; [done|]. split; [|by apply eval_sim_operands].
    apply (f_equal (fun k => k !! l)) in KC.
    rewrite !list_lookup_fmap, Hm, Hm' in KC. by injection KC. }
  split; [apply (kept_wf u); [by apply kept_values_kept|done]|]. split.
  - intros l m' Hm' Hc. destruct (Hback l m' Hm') as (m & Hm & Hcv & _).
    rewrite (kept_eval u u') by by apply kept_values_kept.
    rewrite <- Hcv in *. by apply Haf.
  - intros l m' Hm' Hop Hc. destruct (Hback l m' Hm') as (m & Hm & Hcv & Hops).
    rewrite <- Hcv in Hc. rewrite <- Hops in Hop. by eapply Hcr.
Qed.

(** After a first loop that completed, every cached value is fresh,
    dirty or not. *)
Lemma calc_expressions_all_fresh ctx w wa :
  coherent ctx w -> calc_expressions ctx w = (Ok tt, wa) ->
  wf_heap (heap wa) /\ all_fresh wa /\ cached_registered ctx wa.
Proof.
  intros Hco H1.
  assert (coherent ctx wa) as (Hwf & _ & Hcr).
  { replace wa with (snd (calc_expressions ctx w)) by by rewrite H1.
    unfold calc_expressions. apply for_each_inv_in; [|done].
    intros p u Hp Hu. apply bind_inv; [|done|done]. intros. by apply coherent_calc. }
  split; [done|]. split; [|done].
  intros l n Hn Hc. destruct (decide (operands n = [])) as [Hop|Hop].
  { by apply leaf_fresh. }
  pose proof (Hcr l n Hn Hop Hc) as Hin.
  destruct (calc_expressions_settled ctx w wa l H1 Hin) as (c & Hcd & Hs).
  unfold cached in Hcd. rewrite Hn in Hcd. injection Hcd as <-.
  pose proof (calc_expressions_run _ _ _ H1) as K.
  rewrite (kept_eval w wa) by by apply kept_flags_kept.
  destruct Hs as [|(Hc0 & _ & Hd0)]; [done|].
  destruct Hco as (_ & Hcf & _). unfold cached in Hc0.
  destruct (heap w !! l) as [n0|] eqn:Hn0; [|done]. injection Hc0 as Hc0.
  rewrite <- Hc0. apply Hcf; [done|by rewrite Hc0|done].
Qed.

Lemma coherent_recalculate ctx name w :
  named_in_list ctx -> coherent ctx w ->
  coherent ctx (snd (EvaluationContext_calc ctx name w)) /\
  (forall l v w', d_expressionMap ctx !! name = Some (Some l) ->
     EvaluationContext_calc ctx name w = (Ok v, w') ->
     eval (heap w') (Some l) = Ok v /\ all_fresh w').
Proof.
  intros Hin Hco. unfold EvaluationContext_calc, bind.
  assert (coherent ctx (snd (calc_expressions ctx w))) as Hco1.
  { unfold calc_expressions. apply for_each_inv_in; [|done].
    intros p u Hp Hu. apply bind_inv; [|done|done]. intros. by apply coherent_calc. }
  destruct (calc_expressions ctx w) as [[[]|s| |] wa] eqn:H1; try done.
  pose proof (calc_expressions_all_fresh ctx w wa Hco H1) as Hfa.
  pose proof (kept_values_fresh ctx wa _ (cache_variables_kept ctx wa) Hfa)
    as (Hwfb & Hafb & Hcrb).
  destruct (cache_variables ctx wa) as [[[]|s| |] wb] eqn:H2; simpl in *;
    try (split; [by split; [|split; [apply all_fresh_clean|]]|done]).
  destruct (d_expressionMap ctx !! name) as [[l|]|] eqn:Hname;
    try (split; [by split; [|split; [apply all_fresh_clean|]]|done]).
  assert (coherent ctx wb) as Hcob
    by (split; [done|split; [by apply all_fresh_clean|done]]).
  split; [apply coherent_calc; [by eapply Hin|done]|].
  intros l' v w' [= <-] Hc.
  pose proof (all_fresh_calc (Some l) wb Hafb) as Haf'. rewrite Hc in Haf'.
  split; [|done].
  pose proof (calc_kept_flags (Some l) wb) as K. rewrite Hc in K. simpl in K.
  rewrite (kept_eval wb w') by by apply kept_flags_kept.
  pose proof (calc_outcome_holds (Some l) wb) as Ho. rewrite Hc in Ho.
  remember (Ok v, w') as r eqn:Hr.
  destruct Ho as [l' n Hl Hn Hnan _|l' n v' Hl Hn _ Hv| |r' Hr'];
    simplify_eq; [by apply Hafb|done|by destruct Hr'].
Qed.

Lemma coherent_empty ctx : coherent ctx empty_world.
Proof.
  split; [intros l n p Hl; simpl in Hl; by rewrite lookup_nil in Hl|].
  split; intros l n Hl; simpl in Hl; by rewrite lookup_nil in Hl.
Qed.

Lemma coherent_mono ctx ctx' w :
  d_expressions ctx ⊆ d_expressions ctx' -> coherent ctx w -> coherent ctx' w.
Proof.
  intros Hsub (Hwf & Hcf & Hcr). split; [done|]. split; [done|].
  intros l n Hn Hop Hc. apply Hsub. by eapply Hcr.
Qed.

Lemma coherent_run listed prog ctx name w0 w :
  disciplined_from listed (prog ++ [Recalculate ctx name]) ->
  coherent (mkContext ∅ ∅ listed) w0 -> run prog w0 = Some w ->
  named_in_list ctx /\ coherent ctx w.
Proof.
  revert listed w0.
  induction prog as [|a prog IH]; intros listed w0 Hd Hco Hrun.
  - injection Hrun as <-. simpl in Hd. destruct Hd as (Hsub & Hin & _).
    split; [done|]. by apply (coherent_mono (mkContext ∅ ∅ listed)).
  - simpl in Hrun.
    destruct (live_action a (heap w0)) eqn:Hl; [|done].
    set (I := fun listed' w' => coherent (mkContext ∅ ∅ listed') w').
    assert (exists listed', disciplined_from listed' (prog ++ [Recalculate ctx name])
              /\ I listed' (snd (perform a w0))) as (listed' & Hd' & Hco1).
    { destruct a; simpl in Hd, Hl |- *.
      - exists listed. split; [done|].
        apply (make_inv (I listed)); try done.
        + intros; by apply coherent_alloc.
        + intros p Hp. by apply list_elem_of_singleton in Hp as ->.
      - exists listed. split; [done|].
        apply (make_inv (I listed)); try done.
        + intros; by apply coherent_alloc.
        + intros p Hp. by apply not_elem_of_nil in Hp.
      - exists listed. split; [done|].
        apply (make_inv (I listed)); try done.
        + intros; by apply coherent_alloc.
        + intros p Hp. by apply not_elem_of_nil in Hp.
      - exists listed. split; [done|].
        apply (make_inv (I listed)); try done.
        + intros; by apply coherent_alloc.
        + intros p Hp. by apply list_elem_of_singleton in Hp as ->.
      - apply andb_true_iff in Hl as [Hl1 Hl2].
        exists listed. split; [done|].
        apply (make_inv (I listed)); try done.
        + intros; by apply coherent_alloc.
        + intros p Hp. apply elem_of_cons in Hp as [->|Hp]; [done|].
          by apply list_elem_of_singleton in Hp as ->.
      - exists listed. split; [done|]. by apply coherent_set.
      - done.
      - exists (p :: listed). split; [done|].
        assert (I (p :: listed) w0) as Hco'
          by (apply (coherent_mono (mkContext ∅ ∅ listed)); [|done];
              intros q Hq; by apply list_elem_of_further).
        apply bind_inv; [|done|done]. intros.
        apply coherent_calc; [apply list_elem_of_here|done].
      - destruct Hd as (Hsub & Hin & Hd).
        exists (d_expressions ctx0). split; [done|].
        assert (coherent ctx0 w0) as Hco'
          by by apply (coherent_mono (mkContext ∅ ∅ listed)).
        apply bind_inv; [|done|done]. intros.
        apply (coherent_mono ctx0); [done|].
        by apply coherent_recalculate. }
    destruct (perform a w0) as [[[]|s| |] w1]; try done;
      by apply (IH listed' w1).
Qed.

(** X9.  A client that leaves freezing to its contexts always gets the
    current value.  The client never calls [cache()] itself, and each of
    its passes, the last included, goes through a context whose
    expression map names nodes of its evaluation list only and whose
    evaluation list contains the evaluation list of the pass before and
    every pointer [calc()] was called on directly since; between passes
    it may construct, set and register.  Then a pass that returns,
    returns what [eval()] gives for the target, and leaves no stale
    value cached anywhere. *)
Theorem disciplined_pass_is_current ctx prog w name l v w' :
  disciplined_from [] (prog ++ [Recalculate ctx name]) ->
  run prog empty_world = Some w ->
  d_expressionMap ctx !! name = Some (Some l) ->
  EvaluationContext_calc ctx name w = (Ok v, w') ->
  eval (heap w') (Some l) = Ok v /\
  eval (heap w) (Some l) = Ok v /\
  all_fresh w'.
Proof.
  intros Hd Hrun Hname Hc.
  destruct (coherent_run [] prog ctx name _ w Hd (coherent_empty _) Hrun)
    as [Hin Hco].
  destruct (coherent_recalculate ctx name w Hin Hco) as [_ H].
  destruct (H l v w' Hname Hc) as [He Haf]. split; [done|]. split; [|done].
  rewrite <- He. symmetry.
  assert (kept w w') as K; [|by apply kept_eval].
  pose proof (calc_expressions_kept ctx w) as K1.
  unfold EvaluationContext_calc, bind in Hc.
  destruct (calc_expressions ctx w) as [[[]|s| |] wa]; try done.
  pose proof (cache_variables_kept ctx wa) as K2.
  destruct (cache_variables ctx wa) as [[[]|s| |] wb]; try done.
  rewrite Hname in Hc. pose proof (calc_kept_flags (Some l) wb) as K3.
  rewrite Hc in K3. simpl in *.
  etrans; [by apply kept_flags_kept|].
  etrans; [by apply kept_values_kept|by apply kept_flags_kept].
Qed.

(** ** When a pass returns, and what a failed pass leaves *)

Lemma eval_ok_live h l v : eval h (Some l) = Ok v -> exists n, h !! l = Some n.
Proof.
  unfold eval. cbn [eval_fuel deref].
  destruct (h !! l) as [n|]; [eauto|done].
Qed.

Lemma calc_ok_of_eval l v u :
  eval (heap u) (Some l) = Ok v ->
  exists c u', EvalNode_calc (Some l) u = (Ok c, u').
Proof.
  intros He. destruct (eval_ok_live _ _ _ He) as [n Hn].
  destruct (eval_ok_needCalc_ok _ _ _ _ He) as [b Hb].
  fold (needCalc (heap u) (Some l)) in Hb.
  destruct (is_nan (d_cachedValue n)) eqn:Hc.
  - rewrite (calc_miss_eq l n v u Hn (or_introl Hc) He). eauto.
  - destruct b.
    + rewrite (calc_miss_eq l n v u Hn (or_intror Hb) He). eauto.
    + rewrite (calc_hit_eq l n u Hn Hc Hb). eauto.
Qed.

Lemma for_each_calc_succeeds ps u :
  (forall p, p ∈ ps -> exists l v, p = Some l /\ eval (heap u) (Some l) = Ok v) ->
  exists u', for_each (fun p => let* _ := EvalNode_calc p in ret tt) ps u
             = (Ok tt, u').
Proof.
  revert u. induction ps as [|p ps IH]; intros u Hps; simpl; [by exists u|].
  destruct (Hps p (list_elem_of_here _ _)) as (l & v & -> & He).
  destruct (calc_ok_of_eval l v u He) as (c & u1 & Hc).
  pose proof (calc_kept_flags (Some l) u) as K. rewrite Hc in K. simpl in K.
  destruct (IH u1) as [u' Hrun].
  { intros q Hq. destruct (Hps q (list_elem_of_further _ _ _ Hq))
      as (l' & v' & -> & He').
    exists l', v'. split; [done|].
    by rewrite (kept_eval u u1) by by apply kept_flags_kept. }
  exists u'. unfold bind at 1 2. by rewrite Hc.
Qed.

Lemma for_each_cache_succeeds ys u :
  (forall y, y ∈ ys -> exists x, y = Some x /\ is_Some (flag (heap u) x)) ->
  exists u', for_each VariableNode_cache ys u = (Ok tt, u').
Proof.
  revert u. induction ys as [|y ys IH]; intros u Hys; simpl; [by exists u|].
  destruct (Hys y (list_elem_of_here _ _)) as (x & -> & [b Hx]).
  pose proof (cache_kept_values (Some x) u) as [K _].
  assert (exists u1, VariableNode_cache (Some x) u = (Ok tt, u1)) as [u1 Hc].
  { unfold flag in Hx. unfold VariableNode_cache, bind, query, store. simpl.
    destruct (heap u !! x) as [[c d]|]; [|done]. destruct d; try done.
    simpl. eauto. }
  rewrite Hc in K. simpl in K.
  destruct (IH u1) as [u' Hrun].
  { intros z Hz. destruct (Hys z (list_elem_of_further _ _ _ Hz))
      as (x' & -> & Hx').
    exists x'. split; [done|]. by apply (flag_sim _ _ x' K). }
  exists u'. unfold bind. by rewrite Hc.
Qed.

(** X10.  A pass returns a value whenever the context is sound for
    the store: [eval()] gives a value on every registered expression and
    on the target, and every registered variable is a variable of the
    store. *)
Theorem recalculate_succeeds ctx name l w :
  (forall p, p ∈ d_expressions ctx ->
     exists l' v, p = Some l' /\ eval (heap w) (Some l') = Ok v) ->
  (forall y, y ∈ variables ctx ->
     exists x, y = Some x /\ is_Some (flag (heap w) x)) ->
  d_expressionMap ctx !! name = Some (Some l) ->
  (exists v, eval (heap w) (Some l) = Ok v) ->
  exists v w', EvaluationContext_calc ctx name w = (Ok v, w').
Proof.
  intros Hexp Hvar Hname [v Hv].
  destruct (for_each_calc_succeeds _ w Hexp) as [wa H1].
  pose proof (calc_expressions_run ctx w wa H1) as [K1 _].
  destruct (for_each_cache_succeeds (variables ctx) wa) as [wb H2].
  { intros y Hy. destruct (Hvar y Hy) as (x & -> & Hx).
    exists x. split; [done|]. by apply (flag_sim _ _ x K1). }
  pose proof (cache_variables_run ctx wa wb H2) as [K2 _].
  destruct (calc_ok_of_eval l v wb) as (c & w' & Hc).
  { by rewrite <- (eval_sim_eq _ _ (Some l) K2),
      <- (eval_sim_eq _ _ (Some l) K1). }
  exists c, w'. unfold EvaluationContext_calc, bind.
  unfold calc_expressions, cache_variables in *. by rewrite H1, H2, Hname.
Qed.

(** X11.  A pass that throws "Variable not set" threw in its first
    loop, for every target alike, and has frozen nothing: every flag and
    every leaf value is as before, so the values it did cache stay dirty
    and are recomputed by the next pass. *)
Theorem failed_pass_freezes_nothing ctx name w w' :
  wf_heap (heap w) -> named_in_list ctx ->
  EvaluationContext_calc ctx name w = (Throw "Variable not set", w') ->
  calc_expressions ctx w = (Throw "Variable not set", w') /\
  kept_flags w w' /\
  (forall x, flag (heap w') x = flag (heap w) x) /\
  (forall target, EvaluationContext_calc ctx target w
                  = (Throw "Variable not set", w')).
Proof.
  intros Hwf Hin Hc.
  assert (calc_expressions ctx w = (Throw "Variable not set", w')) as H1.
  { unfold EvaluationContext_calc, bind in Hc.
    destruct (calc_expressions ctx w) as [[[]|s| |] wa] eqn:H1;
      [exfalso|by injection Hc as -> ->|done|done].
    destruct (cache_variables ctx wa) as [[[]|s| |] wb] eqn:H2;
      [|pose proof (cache_variables_no_throw ctx wa s) as H;
        by rewrite H2 in H|done|done].
    destruct (d_expressionMap ctx !! name) as [[l|]|] eqn:Hname;
      [|by unfold EvalNode_calc, bind, query in Hc|by unfold throw in Hc].
    pose proof (calc_expressions_run _ _ _ H1) as K1.
    pose proof (cache_variables_run _ _ _ H2) as K2.
    destruct (settled_quiet w l wb Hwf) as (c & u' & Hq & _).
    - etrans; [by apply kept_flags_kept|by apply kept_values_kept].
    - intros x Hx. destruct K1 as [_ F1].
      replace wb with (snd (cache_variables ctx wa)) by by rewrite H2.
      apply for_each_cache_keeps_clean. by rewrite (flag_need_sim _ _ x F1).
    - apply (settled_kept_values w l wa wb K2).
      apply (calc_expressions_settled ctx w wa l H1). by eapply Hin.
    - by rewrite Hq in Hc. }
  pose proof (calc_expressions_kept ctx w) as K. rewrite H1 in K. simpl in K.
  split; [done|]. split; [done|]. split.
  - intros x. destruct K as [_ F]. by apply flag_need_sim.
  - intros target. unfold EvaluationContext_calc, bind. by rewrite H1.
Qed.

(** X12.  Freezing without a pass hides an update.  After [set(v)] on
    a variable followed by [cache()] on it, with no [calc()] in between,
    [calc()] on any other node that was clean and held a cached value
    still returns that old value, served from the cache, whatever [v]
    is and also when the node is computed from the variable.  The
    variable itself is not affected: [calc()] on it returns the new
    [v], and throws when [v] is NaN. *)
Theorem freeze_without_pass_hides_update x v w w1 w2 :
  wf_heap (heap w) ->
  VariableNode_set (Some x) v w = (Ok tt, w1) ->
  VariableNode_cache (Some x) w1 = (Ok tt, w2) ->
  (forall l n, heap w !! l = Some n -> l <> x ->
     is_nan (d_cachedValue n) = false ->
     needCalc (heap w) (Some l) = Ok false ->
     EvalNode_calc (Some l) w2 = (Ok (d_cachedValue n), using_cache w2)) /\
  (is_nan v = false ->
     EvalNode_calc (Some x) w2 = (Ok v, using_cache w2)) /\
  (is_nan v = true ->
     EvalNode_calc (Some x) w2 = (Throw "Variable not set", w2)).
Proof.
  intros Hwf Hset Hcache.
  apply set_spec in Hset as (c & d & nm & Hx & ->).
  apply cache_spec in Hcache as (c1 & d1 & nm1 & Hx1 & ->). simpl in *.
  rewrite list_lookup_insert_eq in Hx1 by by eapply lookup_lt_Some.
  injection Hx1 as <- <- <-. rewrite list_insert_insert_eq.
  set (h2 := <[x:=mkNode v (VariableNode false nm)]> (heap w)).
  assert (wf_heap h2) as Hwf2 by by apply (wf_heap_insert _ _ _ _ Hwf Hx).
  assert (Forall2 same_operands h2 (heap w)) as HF.
  { unfold h2. rewrite <- (list_insert_id (heap w) x _ Hx) at 2.
    apply Forall2_insert; [|done]. by apply Forall_Forall2_diag, Forall_forall. }
  assert (h2 !! x = Some (mkNode v (VariableNode false nm))) as Hx2
    by (unfold h2; by rewrite list_lookup_insert_eq by by eapply lookup_lt_Some).
  split; [|split].
  - intros l n Hn Hne Hc Hd. apply calc_hit_eq; simpl; fold h2.
    + unfold h2. by rewrite list_lookup_insert_ne.
    + done.
    + apply needCalc_clean; [done|unfold h2; rewrite length_insert;
                              by eapply lookup_lt_Some|].
      intros y Hy Hfl. apply (under_same_operands _ _ _ _ HF) in Hy.
      unfold flag, h2 in Hfl. destruct (decide (y = x)) as [->|Hny].
      * by rewrite list_lookup_insert_eq in Hfl by by eapply lookup_lt_Some.
      * rewrite list_lookup_insert_ne in Hfl by done.
        by rewrite (needCalc_dirty _ l y Hwf Hy) in Hd.
  - intros Hv.
    apply (calc_hit_eq x (mkNode v (VariableNode false nm))); simpl; fold h2.
    + done.
    + done.
    + by apply (needCalc_VariableNode h2 x v false nm).
  - intros Hv.
    apply (calc_throw_eq x (mkNode v (VariableNode false nm))); simpl; fold h2.
    + done.
    + by left.
    + rewrite (eval_VariableNode h2 x v false nm Hx2). by rewrite Hv.
Qed.

(** ** Construction is a frame *)

(** X13.  Constructing a node disturbs nothing: the new node gets the
    next location, every existing node is as it was, and [eval()],
    [needCalc()] and [calc()] answer on it as before; the store stays
    well formed. *)
Theorem construction_is_frame a w l :
  match a with
  | MakeExpression _ _ | MakeConstant _ | MakeVariable _
  | MakeUnaryOperator _ _ | MakeBinaryOperator _ _ _ => True
  | _ => False
  end ->
  wf_heap (heap w) -> live_action a (heap w) = true -> l < length (heap w) ->
  let w' := snd (perform a w) in
  fst (perform a w) = Ok tt /\
  length (heap w') = S (length (heap w)) /\
  wf_heap (heap w') /\
  heap w' !! l = heap w !! l /\
  eval (heap w') (Some l) = eval (heap w) (Some l) /\
  needCalc (heap w') (Some l) = needCalc (heap w) (Some l) /\
  fst (EvalNode_calc (Some l) w') = fst (EvalNode_calc (Some l) w).
Proof.
  intros Ha Hwf Hlive Hl w'.
  assert (exists n, heap w' = heap w ++ [n] /\ fst (perform a w) = Ok tt /\
            forall p, p ∈ operands n -> live (heap w) p = true)
    as (n & Hh & Hok & Hops).
  { subst w'. destruct a; try done; simpl in *; eexists; (split; [done|]);
      (split; [done|]); intros p Hp; unfold operands in Hp; simpl in Hp.
    - by apply list_elem_of_singleton in Hp as ->.
    - by apply not_elem_of_nil in Hp.
    - by apply not_elem_of_nil in Hp.
    - by apply list_elem_of_singleton in Hp as ->.
    - apply andb_true_iff in Hlive as [H1 H2].
      apply elem_of_cons in Hp as [->|Hp]; [done|].
      by apply list_elem_of_singleton in Hp as ->. }
  assert (wf_heap (heap w')) as Hwf' by (rewrite Hh; by apply wf_heap_app).
  assert (forall y, under (heap w) l y -> heap w' !! y = heap w !! y) as Hag.
  { intros y Hy. rewrite Hh. apply lookup_app_l.
    apply (under_le _ _ _ Hwf) in Hy. lia. }
  pose proof (eval_agree _ _ l Hwf Hwf' Hag) as He.
  pose proof (needCalc_agree _ _ l Hwf Hwf' Hag) as Hd.
  split; [done|]. split; [rewrite Hh, length_app; simpl; lia|].
  split; [done|]. split; [apply Hag; constructor|]. split; [done|].
  split; [done|]. apply calc_fst_congr; [apply Hag; constructor|done|done].
Qed.

(** ** Concrete runs of the further properties *)

Lemma named_in_list_addExpression name e ctx :
  named_in_list ctx -> named_in_list (addExpression name e ctx).
Proof. intros H. apply (call_context_keeps (AddExpression name e) ctx H). Qed.

Lemma named_in_list_addVariable name v ctx :
  named_in_list ctx -> named_in_list (addVariable name v ctx).
Proof. intros H. apply (call_context_keeps (AddVariable name v) ctx H). Qed.

Lemma named_in_list_first : named_in_list first_ctx.
Proof.
  apply named_in_list_addExpression.
  apply named_in_list_addVariable, named_in_list_new.
Qed.

Lemma named_in_list_demo : named_in_list demo_ctx.
Proof.
  repeat apply named_in_list_addExpression.
  apply named_in_list_addVariable, named_in_list_new.
Qed.

Lemma named_in_list_unset : named_in_list unset_ctx.
Proof.
  apply named_in_list_addExpression.
  repeat apply named_in_list_addVariable. apply named_in_list_new.
Qed.

(** "E1" of the scenario is dirty, and a dirty variable is below. *)
Lemma needCalc_iff_dirty_below_witness :
  needCalc (heap demo_world) (Some 5) = Ok true <->
  exists x, under (heap demo_world) 5 x /\ flag (heap demo_world) x = Some true.
Proof.
  refine (proj1 (needCalc_iff_dirty_below (heap demo_world) 5 _ _)).
  - apply wf_check. vm_compute. reflexivity.
  - apply Nat.ltb_lt. vm_compute. reflexivity.
Defined.

(** The expression over the unset [a]. *)
Lemma eval_iff_unset_below_witness :
  eval (heap unset_world) (Some 2) = Throw "Variable not set" <->
  exists x c d name, under (heap unset_world) 2 x /\
    heap unset_world !! x = Some (mkNode c (VariableNode d name)) /\
    is_nan c = true.
Proof.
  refine (proj1 (eval_iff_unset_below (heap unset_world) 2 _ _)).
  - apply wf_check. vm_compute. reflexivity.
  - apply Nat.ltb_lt. vm_compute. reflexivity.
Defined.

(** The world [unset_prog] reaches. *)
Lemma reachable_evaluation_total_witness :
  exists w, run unset_prog empty_world = Some w /\
    exists b, needCalc (heap w) (Some 3) = Ok b.
Proof.
  eexists. split; [vm_compute; reflexivity|].
  refine (proj1 (proj2 (reachable_evaluation_total unset_prog _ 3 _ _))).
  - vm_compute. reflexivity.
  - apply Nat.ltb_lt. vm_compute. reflexivity.
Defined.

(** [a.set(5)] in the scenario: "E1" is dirty and recomputes. *)
Lemma set_reaches_nodes_above_witness :
  needCalc (heap demo_world) (Some 5) = Ok true /\
  fst (EvalNode_calc (Some 5) demo_world) = eval (heap demo_world) (Some 5).
Proof.
  refine (proj2 (set_reaches_nodes_above 0 5%float
    (snd (build_shared empty_world)) demo_world _ _) 5 _ _).
  - apply wf_check. vm_compute. reflexivity.
  - vm_compute. reflexivity.
  - apply Nat.ltb_lt. vm_compute. reflexivity.
  - eapply under_operand; [vm_compute; reflexivity|apply list_elem_of_here|].
    eapply under_operand; [vm_compute; reflexivity|apply list_elem_of_here|].
    apply under_here.
Defined.

(** The pass of the scenario, run twice. *)
Lemma recalculate_idempotent_witness :
  exists w2,
    EvaluationContext_calc demo_ctx "E1"
      (snd (EvaluationContext_calc demo_ctx "E1" demo_world))
    = (Ok 10%float, w2) /\
    heap w2 = heap (snd (EvaluationContext_calc demo_ctx "E1" demo_world)).
Proof.
  refine (recalculate_idempotent demo_ctx "E1" demo_world 10%float _ _ _).
  - apply wf_check. vm_compute. reflexivity.
  - vm_compute. reflexivity.
Defined.

Lemma context_never_forgets_witness :
  named_in_list (call_contexts demo_calls new_EvaluationContext).
Proof.
  exact (proj1 (context_never_forgets demo_calls new_EvaluationContext
                  named_in_list_new)).
Defined.

(** The context of the scenario after a lookup of the unknown "z". *)
Lemma lookup_poisons_context_witness :
  fst (EvaluationContext_calc (snd (getVariable "z" demo_ctx)) "E1" demo_world)
    = Undef.
Proof.
  refine (proj1 (lookup_poisons_context demo_ctx "F" "z" _ _)
            "E1" demo_world (snd (calc_expressions demo_ctx demo_world)) _).
  - vm_compute. reflexivity.
  - vm_compute. reflexivity.
  - vm_compute. reflexivity.
Defined.

(** [demo_prog], then a pass for "E2": 15, the value for [a = 5]. *)
Lemma disciplined_pass_is_current_witness :
  exists w, run demo_prog empty_world = Some w /\
    eval (heap (snd (EvaluationContext_calc demo_ctx "E2" w))) (Some 6)
      = Ok 15%float.
Proof.
  eexists. split; [vm_compute; reflexivity|].
  refine (proj1 (disciplined_pass_is_current demo_ctx demo_prog _ "E2" 6
                   15%float _ _ _ _ _)).
  - simpl. split; [apply list_subseteq_nil|].
    split; [apply named_in_list_first|].
    split; [|split; [apply named_in_list_demo|done]].
    intros p Hp. apply elem_of_cons in Hp as [->|Hp]; vm_compute.
    + apply list_elem_of_further, list_elem_of_here.
    + apply list_elem_of_singleton in Hp as ->. apply list_elem_of_here.
  - vm_compute. reflexivity.
  - vm_compute. reflexivity.
  - vm_compute. reflexivity.
Defined.

Lemma recalculate_succeeds_witness :
  exists v w', EvaluationContext_calc demo_ctx "E1" demo_world = (Ok v, w').
Proof.
  refine (recalculate_succeeds demo_ctx "E1" 5 demo_world _ _ _ _).
  - intros p Hp. change (d_expressions demo_ctx) with [Some 5; Some 6] in Hp.
    apply elem_of_cons in Hp as [->|Hp];
      [exists 5, 10%float; split; [done|vm_compute; reflexivity]|].
    apply list_elem_of_singleton in Hp as ->.
    exists 6, 15%float. split; [done|vm_compute; reflexivity].
  - intros y Hy.
    assert (variables demo_ctx = [Some 0]) as Hv by (vm_compute; reflexivity).
    rewrite Hv in Hy. apply list_elem_of_singleton in Hy as ->.
    exists 0. split; [done|]. exists true. vm_compute. reflexivity.
  - vm_compute. reflexivity.
  - exists 10%float. vm_compute. reflexivity.
Defined.

(** The pass over the unset [a]: [b] stays dirty. *)
Lemma failed_pass_freezes_nothing_witness :
  flag (heap (snd (EvaluationContext_calc unset_ctx "E" unset_world))) 1
    = flag (heap unset_world) 1.
Proof.
  refine (proj1 (proj2 (proj2 (failed_pass_freezes_nothing unset_ctx "E"
    unset_world (snd (EvaluationContext_calc unset_ctx "E" unset_world))
    _ named_in_list_unset _))) 1).
  - apply wf_check. vm_compute. reflexivity.
  - vm_compute. reflexivity.
Defined.

(** After the pass "E1" holds 10; [a.set(7)] and [a.cache()] later it
    still answers 10. *)
Lemma freeze_without_pass_hides_update_witness :
  EvalNode_calc (Some 5) hidden_world = (Ok 10%float, using_cache hidden_world) /\
  EvalNode_calc (Some 0) hidden_world = (Ok 7%float, using_cache hidden_world).
Proof.
  destruct (freeze_without_pass_hides_update 0 7%float passed_world
    (snd (VariableNode_set (Some 0) 7%float passed_world)) hidden_world)
    as (Hother & Hself & _).
  - apply wf_check. vm_compute. reflexivity.
  - vm_compute. reflexivity.
  - vm_compute. reflexivity.
  - split.
    + apply (Hother 5 (mkNode 10%float (ExpressionNode (Some 3) "E1"))).
      * vm_compute. reflexivity.
      * discriminate.
      * vm_compute. reflexivity.
      * vm_compute. reflexivity.
    + apply Hself. vm_compute. reflexivity.
Defined.

(** A fourth node added to [chain_world]: "E" answers as before. *)
Lemma construction_is_frame_witness :
  eval (heap (snd (perform (MakeUnaryOperator (Some 2) (times 3%float))
                     chain_world))) (Some 2)
    = eval (heap chain_world) (Some 2).
Proof.
  refine (proj1 (proj2 (proj2 (proj2 (proj2 (construction_is_frame
    (MakeUnaryOperator (Some 2) (times 3%float)) chain_world 2 I _ _ _)))))).
  - apply wf_check. vm_compute. reflexivity.
  - vm_compute. reflexivity.
  - apply Nat.ltb_lt. vm_compute. reflexivity.
Defined.
